(** * CacheBox: the resource lifecycle registry of UnrealUtils

    A shallow embedding of [UCacheBox] (src/CacheBox/CacheBox.h and
    src/CacheBox/CacheBox.cpp): single-reference [LoadSynchronous], the
    four overloads of [RequestAsyncLoad] with their weak lambdas,
    [CreateActor], [DestroyObject], [DestroyAllObjects], [UnloadObject],
    [UnloadClass], [UnloadAllObjects], [BeginDestroy] and [DestroyBox].

    The [TSet] members are finite sets and every member function is a
    computation in a state monad that also records the calls leaving the
    box.  What the class asks of the Unreal Engine (object validity, casts,
    soft pointer resolution and loading, actor spawning, the effect of a
    teardown) is the [Engine] interface over an abstract engine state; the
    streamable manager and the weak binding of a delegate are modelled by
    their contract: a submitted request is signalled complete once, and a
    weak lambda runs only while the box it is bound to has not been
    reclaimed.  Calls back into the box from inside an engine call are not
    run; each outgoing call is recorded with the box it would find. *)

From stdpp Require Import base gmap sets list strings.

(** ** Handles *)

(** A non-null [UObject*] is an object identity; a nullable pointer is an
    [option].  A [UClass] is itself a [UObject], and a soft pointer is
    compared and hashed by its [FSoftObjectPath]. *)
Abbreviation UObject := positive (only parsing).
Abbreviation UClass := positive (only parsing).
Abbreviation FSoftObjectPath := string (only parsing).
Abbreviation TSoftObjectPtr := string (only parsing).
Abbreviation TSoftClassPtr := string (only parsing).
Abbreviation Callback := nat (only parsing).

(** [FSoftObjectPath::IsNull]: the path is empty. *)
Definition IsNull (p : FSoftObjectPath) : bool :=
  bool_decide (p = EmptyString).

Definition ToSoftObjectPath (p : TSoftObjectPtr) : FSoftObjectPath := p.

(** ** TSet *)

Module TSet.

Definition Emplace `{Countable K} (x : K) (s : gset K) : gset K := {[x]} ∪ s.

Definition Remove `{Countable K} (x : K) (s : gset K) : gset K := s ∖ {[x]}.

(** [Remove] of a possibly null pointer: no set here ever holds nullptr. *)
Definition RemovePtr `{Countable K} (x : option K) (s : gset K) : gset K :=
  match x with
  | Some k => Remove k s
  | None => s
  end.

Definition Empty `{Countable K} (s : gset K) : gset K := ∅.

End TSet.

(** ** Delegates *)

(** The bodies of the four lambdas the box binds with [BindWeakLambda],
    with the values they capture. *)
Inductive Completion :=
| ObjectArrayLoaded (SoftObjectPathTemp : list FSoftObjectPath)
| ClassArrayLoaded (SoftClassPathTemp : list FSoftObjectPath)
| ObjectLoaded (T : UClass) (SoftObject : TSoftObjectPtr)
| ClassLoaded (T : UClass) (SoftClass : TSoftClassPtr).

(** An [FStreamableDelegate] is unbound, bound by a caller to a callback of
    its own, or bound by the box to one of its lambdas through a weak
    pointer to the box; the lambda captures the caller's delegate. *)
Inductive FStreamableDelegate :=
| Unbound
| BindStatic (cb : Callback)
| BindWeakLambda (body : Completion) (DelegateToCall : FStreamableDelegate).

(** A request handed to [FStreamableManager::RequestAsyncLoad]. *)
Record AsyncRequest := {
  TargetsToStream : list FSoftObjectPath;
  DelegateToCall : FStreamableDelegate
}.

(** ** The registry *)

Record UCacheBox := {
  CreatedObjects : gset UObject;
  LoadedObjects : gset UObject;
  LoadedSoftObjects : gset TSoftObjectPtr;
  LoadedSoftClasses : gset TSoftClassPtr;
  Streamable : list AsyncRequest
}.

Definition set_CreatedObjects (f : gset UObject → gset UObject) (b : UCacheBox) : UCacheBox :=
  {| CreatedObjects := f (CreatedObjects b);
     LoadedObjects := LoadedObjects b;
     LoadedSoftObjects := LoadedSoftObjects b;
     LoadedSoftClasses := LoadedSoftClasses b;
     Streamable := Streamable b |}.

Definition set_LoadedObjects (f : gset UObject → gset UObject) (b : UCacheBox) : UCacheBox :=
  {| CreatedObjects := CreatedObjects b;
     LoadedObjects := f (LoadedObjects b);
     LoadedSoftObjects := LoadedSoftObjects b;
     LoadedSoftClasses := LoadedSoftClasses b;
     Streamable := Streamable b |}.

Definition set_LoadedSoftObjects (f : gset TSoftObjectPtr → gset TSoftObjectPtr) (b : UCacheBox) : UCacheBox :=
  {| CreatedObjects := CreatedObjects b;
     LoadedObjects := LoadedObjects b;
     LoadedSoftObjects := f (LoadedSoftObjects b);
     LoadedSoftClasses := LoadedSoftClasses b;
     Streamable := Streamable b |}.

Definition set_LoadedSoftClasses (f : gset TSoftClassPtr → gset TSoftClassPtr) (b : UCacheBox) : UCacheBox :=
  {| CreatedObjects := CreatedObjects b;
     LoadedObjects := LoadedObjects b;
     LoadedSoftObjects := LoadedSoftObjects b;
     LoadedSoftClasses := f (LoadedSoftClasses b);
     Streamable := Streamable b |}.

Definition set_Streamable (f : list AsyncRequest → list AsyncRequest) (b : UCacheBox) : UCacheBox :=
  {| CreatedObjects := CreatedObjects b;
     LoadedObjects := LoadedObjects b;
     LoadedSoftObjects := LoadedSoftObjects b;
     LoadedSoftClasses := LoadedSoftClasses b;
     Streamable := f (Streamable b) |}.

(** A freshly constructed box. *)
Definition NewCacheBox : UCacheBox :=
  {| CreatedObjects := ∅; LoadedObjects := ∅; LoadedSoftObjects := ∅;
     LoadedSoftClasses := ∅; Streamable := [] |}.

(** ** Calls that leave the box *)

(** The teardown primitives of the engine and the execution of a caller's
    delegate.  Each is recorded with the box as it is at the moment of the
    call: that is the box a re-entrant call made from inside would see. *)
Inductive EngineCall :=
| CallRemoveFromParent (UI : UObject)
| CallDestroy (Actor : UObject)
| CallConditionalBeginDestroy (Object : UObject)
| CallMarkAsGarbage (Object : UObject)
| CallExecute (cb : Callback).

Record Event := {
  ev_call : EngineCall;
  ev_seen : UCacheBox
}.

(** The object a teardown call is applied to. *)
Definition teardown_target (c : EngineCall) : option UObject :=
  match c with
  | CallRemoveFromParent o | CallDestroy o
  | CallConditionalBeginDestroy o | CallMarkAsGarbage o => Some o
  | CallExecute _ => None
  end.

(** How often callback [cb] is executed in a trace. *)
Definition is_execute (cb : Callback) (e : Event) : bool :=
  match ev_call e with
  | CallExecute cb' => bool_decide (cb' = cb)
  | _ => false
  end.

Definition executions (cb : Callback) (tr : list Event) : nat :=
  length (filter (λ e, is_execute cb e) tr).

(** ** The engine *)

Class Engine (W : Type) := {
  (** [IsValid(Object)], also [TWeakObjectPtr::IsValid] *)
  IsValid : W → UObject → bool;
  (** [Cast<T>(Object)] succeeds *)
  IsA : UObject → UClass → bool;
  (** [UClass::IsChildOf] *)
  IsChildOf : UClass → UClass → bool;
  UUserWidget_StaticClass : UClass;
  AActor_StaticClass : UClass;
  (** the path of the soft pointer built from an object *)
  GetPathName : UObject → FSoftObjectPath;
  (** [TSoftObjectPtr::Get], [FSoftObjectPath::ResolveObject]: the object
      at the path if it is in memory *)
  ResolveObject : W → FSoftObjectPath → option UObject;
  (** [TSoftObjectPtr::LoadSynchronous]: blocking load *)
  TryLoad : W → FSoftObjectPath → option UObject * W;
  (** [Utils::Common::GetWorld()] is not null *)
  GetWorld : W → bool;
  (** [UWorld::SpawnActor] *)
  SpawnActor : W → UClass → option UObject * W;
  (** what a call that leaves the box does to the engine state *)
  perform : EngineCall → W → W
}.

Section CacheBox.

Context {W : Type} `{!Engine W}.

(** [Cast<T>] of a nullable pointer. *)
Definition Cast (T : UClass) (p : option UObject) : option UObject :=
  match p with
  | Some o => if IsA o T then Some o else None
  | None => None
  end.

(** The box as a [UObject] of the engine: its members, the engine state
    around it, the [RF_BeginDestroyed] flag that [ConditionalBeginDestroy]
    tests, and whether the object has been reclaimed, which is what a weak
    pointer to the box detects. *)
Record State := {
  this : UCacheBox;
  world : W;
  RF_BeginDestroyed : bool;
  reclaimed : bool
}.

Definition set_this (f : UCacheBox → UCacheBox) (st : State) : State :=
  {| this := f (this st); world := world st;
     RF_BeginDestroyed := RF_BeginDestroyed st; reclaimed := reclaimed st |}.

Definition set_world (f : W → W) (st : State) : State :=
  {| this := this st; world := f (world st);
     RF_BeginDestroyed := RF_BeginDestroyed st; reclaimed := reclaimed st |}.

Definition set_BeginDestroyed (st : State) : State :=
  {| this := this st; world := world st;
     RF_BeginDestroyed := true; reclaimed := reclaimed st |}.

(** The garbage collector frees the box. *)
Definition CollectGarbage (st : State) : State :=
  {| this := this st; world := world st;
     RF_BeginDestroyed := RF_BeginDestroyed st; reclaimed := true |}.

(** ** The monad: state passing with a trace of outgoing calls *)

Definition M (A : Type) : Type := State → A * State * list Event.

#[local] Instance M_ret : MRet M := λ A a st, (a, st, []).

#[local] Instance M_bind : MBind M := λ A B f m st,
  let '(a, st1, tr1) := m st in
  let '(b, st2, tr2) := f a st1 in
  (b, st2, tr1 ++ tr2).

Definition get_this : M UCacheBox := λ st, (this st, st, []).

Definition modify_this (f : UCacheBox → UCacheBox) : M unit :=
  λ st, (tt, set_this f st, []).

Definition ask {A : Type} (q : W → A) : M A := λ st, (q (world st), st, []).

Definition engine {A : Type} (op : W → A * W) : M A :=
  λ st, let '(a, w) := op (world st) in (a, set_world (λ _, w) st, []).

Definition call (c : EngineCall) : M unit :=
  λ st, (tt, set_world (perform c) st, [{| ev_call := c; ev_seen := this st |}]).

(** A range-based [for] over a container. *)
Fixpoint for_each {A : Type} (l : list A) (body : A → M unit) : M unit :=
  match l with
  | [] => mret tt
  | x :: l' => body x ;; for_each l' body
  end.

Definition result {A : Type} (r : A * State * list Event) : A := r.1.1.
Definition final {A : Type} (r : A * State * list Event) : State := r.1.2.
Definition trace {A : Type} (r : A * State * list Event) : list Event := r.2.

(** ** Delegates, as the engine executes them *)

(** [Streamable.RequestAsyncLoad(Targets, Delegate)]: the request is in
    flight until the streamable manager signals its completion. *)
Definition Streamable_RequestAsyncLoad (Targets : list FSoftObjectPath)
    (Delegate : FStreamableDelegate) : M unit :=
  modify_this (set_Streamable (λ q,
    q ++ [{| TargetsToStream := Targets; DelegateToCall := Delegate |}])).

(** One resolved entry of an array request: lines 94-99 and 134-139 of
    CacheBox.cpp. *)
Definition ObjectArrayLoaded_item (LoadedObjectPath : FSoftObjectPath) : M unit :=
  r ← ask (λ w, ResolveObject w LoadedObjectPath);
  match r with
  | Some LoadedObject =>
      modify_this (set_LoadedSoftObjects (TSet.Emplace (GetPathName LoadedObject)));;
      modify_this (set_LoadedObjects (TSet.Emplace LoadedObject))
  | None => mret tt
  end.

Definition ClassArrayLoaded_item (SoftObjectPath : FSoftObjectPath) : M unit :=
  r ← ask (λ w, ResolveObject w SoftObjectPath);
  match r with
  | Some LoadedObject =>
      modify_this (set_LoadedSoftClasses (TSet.Emplace (GetPathName LoadedObject)));;
      modify_this (set_LoadedObjects (TSet.Emplace LoadedObject))
  | None => mret tt
  end.

(** The body of each weak lambda up to its closing
    [DelegateToCall.ExecuteIfBound()]. *)
Definition lambda_body (body : Completion) : M unit :=
  match body with
  | ObjectArrayLoaded SoftObjectPathTemp =>
      for_each SoftObjectPathTemp ObjectArrayLoaded_item
  | ClassArrayLoaded SoftClassPathTemp =>
      for_each SoftClassPathTemp ClassArrayLoaded_item
  | ObjectLoaded T SoftObject =>
      r ← ask (λ w, ResolveObject w SoftObject);
      match Cast T r with
      | Some LoadedObject =>
          modify_this (set_LoadedSoftObjects (TSet.Emplace (GetPathName LoadedObject)));;
          modify_this (set_LoadedObjects (TSet.Emplace LoadedObject))
      | None => mret tt
      end
  | ClassLoaded T SoftClass =>
      r ← ask (λ w, ResolveObject w SoftClass);
      match r with
      | Some LoadedClass =>
          if IsChildOf LoadedClass T
          then modify_this (set_LoadedSoftClasses (TSet.Emplace SoftClass))
          else mret tt
      | None => mret tt
      end
  end.

(** [FStreamableDelegate::ExecuteIfBound].  A weak lambda runs only while
    the object it was bound to is still there. *)
Fixpoint ExecuteIfBound (d : FStreamableDelegate) : M unit :=
  match d with
  | Unbound => mret tt
  | BindStatic cb => call (CallExecute cb)
  | BindWeakLambda body DelegateToCall => λ st,
      if reclaimed st then (tt, st, [])
      else (lambda_body body ;; ExecuteIfBound DelegateToCall) st
  end.

(** The streamable manager signals the completion of a request. *)
Definition SignalCompletion (req : AsyncRequest) : M unit :=
  ExecuteIfBound (DelegateToCall req).

(** The requests submitted between two states of the box. *)
Definition submitted (before after : State) : list AsyncRequest :=
  drop (length (Streamable (this before))) (Streamable (this after)).

(** ** Synchronous load (CacheBox.h, lines 52-104) *)

Definition LoadSynchronous_Object (T : UClass) (SoftObject : TSoftObjectPtr)
    : M (option UObject) :=
  if negb (IsNull SoftObject) then
    r ← engine (λ w, TryLoad w SoftObject);
    match Cast T r with
    | Some LoadedObject =>
        modify_this (set_LoadedSoftObjects (TSet.Emplace (GetPathName LoadedObject)));;
        modify_this (set_LoadedObjects (TSet.Emplace LoadedObject));;
        mret (Some LoadedObject)
    | None => mret None
    end
  else mret None.

Definition LoadSynchronous_Class (T : UClass) (SoftClass : TSoftClassPtr)
    : M (option UClass) :=
  if negb (IsNull SoftClass) then
    r ← engine (λ w, TryLoad w SoftClass);
    match r with
    | Some LoadedClass =>
        if IsChildOf LoadedClass T then
          modify_this (set_LoadedSoftClasses (TSet.Emplace (GetPathName LoadedClass)));;
          modify_this (set_LoadedObjects (TSet.Emplace LoadedClass));;
          mret (Some LoadedClass)
        else mret None
    | None => mret None
    end
  else mret None.

(** ** Asynchronous load (CacheBox.h, lines 120-185; CacheBox.cpp, lines 71-149) *)

Definition RequestAsyncLoad_Object (T : UClass) (SoftObject : TSoftObjectPtr)
    (DelegateToCall : FStreamableDelegate) : M unit :=
  if negb (IsNull SoftObject) then
    Streamable_RequestAsyncLoad [ToSoftObjectPath SoftObject]
      (BindWeakLambda (ObjectLoaded T SoftObject) DelegateToCall)
  else ExecuteIfBound DelegateToCall.

Definition RequestAsyncLoad_Class (T : UClass) (SoftClass : TSoftClassPtr)
    (DelegateToCall : FStreamableDelegate) : M unit :=
  if negb (IsNull SoftClass) then
    Streamable_RequestAsyncLoad [ToSoftObjectPath SoftClass]
      (BindWeakLambda (ClassLoaded T SoftClass) DelegateToCall)
  else ExecuteIfBound DelegateToCall.

(** The loop that keeps the entries that are not null. *)
Definition valid_paths (SoftArray : list TSoftObjectPtr) : list FSoftObjectPath :=
  ToSoftObjectPath <$> filter (λ p, IsNull p = false) SoftArray.

Definition RequestAsyncLoad_Objects (SoftObjectArray : list TSoftObjectPtr)
    (DelegateToCall : FStreamableDelegate) : M unit :=
  let SoftObjectPathTemp := valid_paths SoftObjectArray in
  if negb (bool_decide (SoftObjectPathTemp = [])) then
    Streamable_RequestAsyncLoad SoftObjectPathTemp
      (BindWeakLambda (ObjectArrayLoaded SoftObjectPathTemp) DelegateToCall)
  else ExecuteIfBound DelegateToCall.

Definition RequestAsyncLoad_Classes (SoftClassArray : list TSoftClassPtr)
    (DelegateToCall : FStreamableDelegate) : M unit :=
  let SoftClassPathTemp := valid_paths SoftClassArray in
  if negb (bool_decide (SoftClassPathTemp = [])) then
    Streamable_RequestAsyncLoad SoftClassPathTemp
      (BindWeakLambda (ClassArrayLoaded SoftClassPathTemp) DelegateToCall)
  else ExecuteIfBound DelegateToCall.

(** ** Creation (CacheBox.h, lines 263-291) *)

(** [InClass] is a [TSubclassOf<AActor>], a class pointer that may be null. *)
Definition CreateActor (T : UClass) (InClass : option UClass) : M (option UObject) :=
  match InClass with
  | Some Class =>
      ask (λ w, IsValid w Class) ≫= λ valid : bool,
      if valid then
        ask (λ w, GetWorld w) ≫= λ World : bool,
        if World then
          engine (λ w, SpawnActor w Class) ≫= λ Actor : option UObject,
          match Cast T Actor with
          | Some CastedActor =>
              modify_this (set_CreatedObjects (TSet.Emplace CastedActor));;
              mret (Some CastedActor)
          | None => mret None
          end
        else mret None
      else mret None
  | None => mret None
  end.

(** ** Destruction and unload (CacheBox.cpp, lines 163-264) *)

(** A [TWeakObjectPtr<UObject>] is the object it was made from, or null;
    [Get] gives the object only while it is valid. *)
Definition TWeakObjectPtr_Get (InObject : option UObject) : M (option UObject) :=
  ask (λ w, match InObject with
            | Some o => if IsValid w o then Some o else None
            | None => None
            end).

Definition TWeakObjectPtr_IsValid (InObject : option UObject) : M bool :=
  ask (λ w, match InObject with
            | Some o => IsValid w o
            | None => false
            end).

(** The body of the loop of [DestroyAllObjects]. *)
Definition DestroyAllObjects_item (CreatedObject : UObject) : M unit :=
  ask (λ w, IsValid w CreatedObject) ≫= λ valid : bool,
  if valid then
    if IsA CreatedObject UUserWidget_StaticClass then
      call (CallRemoveFromParent CreatedObject)
    else if IsA CreatedObject AActor_StaticClass then
      call (CallDestroy CreatedObject)
    else call (CallConditionalBeginDestroy CreatedObject)
  else mret tt.

(** The range-based [for] runs over the set in the order of its slots.
    [elements] lists every member once, in an order of its own; the
    properties below use of it only that it does. *)
Definition DestroyAllObjects : M unit :=
  b ← get_this;
  for_each (elements (CreatedObjects b)) DestroyAllObjects_item;;
  modify_this (set_CreatedObjects TSet.Empty).

(** The two loops reset copies of the stored soft pointers, which changes
    nothing that outlives the loop. *)
Definition UnloadAllObjects : M unit :=
  modify_this (set_LoadedObjects TSet.Empty);;
  modify_this (set_LoadedSoftObjects TSet.Empty);;
  modify_this (set_LoadedSoftClasses TSet.Empty).

Definition DestroyObject (InObject : option UObject) (bPure : bool) : M unit :=
  p ← TWeakObjectPtr_Get InObject;
  modify_this (set_CreatedObjects (TSet.RemovePtr p));;
  TWeakObjectPtr_IsValid InObject ≫= λ valid : bool,
  if valid then
    match InObject with
    | Some o =>
        if IsA o UUserWidget_StaticClass then call (CallRemoveFromParent o)
        else if IsA o AActor_StaticClass then call (CallDestroy o)
        else if bPure then call (CallConditionalBeginDestroy o)
        else call (CallMarkAsGarbage o)
    | None => mret tt
    end
  else mret tt.

(** [InObject] is passed by value: its [Reset] is lost on return. *)
Definition UnloadObject (InObject : TSoftObjectPtr) : M unit :=
  r ← ask (λ w, ResolveObject w InObject);
  match r with
  | Some o =>
      modify_this (set_LoadedObjects (TSet.Remove o));;
      modify_this (set_LoadedSoftObjects (TSet.Remove InObject))
  | None => mret tt
  end.

Definition UnloadClass (InObject : TSoftClassPtr) : M unit :=
  r ← ask (λ w, ResolveObject w InObject);
  match r with
  | Some _ => modify_this (set_LoadedSoftClasses (TSet.Remove InObject))
  | None => mret tt
  end.

(** ** Teardown of the box itself (CacheBox.cpp, lines 26-39) *)

Definition BeginDestroy : M unit :=
  DestroyAllObjects;;
  UnloadAllObjects.

(** [UObject::ConditionalBeginDestroy] on the box: [BeginDestroy] runs
    unless the object has begun its destruction before. *)
Definition ConditionalBeginDestroy : M bool :=
  λ st, if RF_BeginDestroyed st then (false, st, [])
        else (BeginDestroy ;; mret true) (set_BeginDestroyed st).

Definition DestroyBox : M bool :=
  bResult ← ConditionalBeginDestroy;
  mret bResult.

(** ** The overloads of [RequestAsyncLoad], by their argument *)

Inductive SoftReferences :=
| OneObject (T : UClass) (SoftObject : TSoftObjectPtr)
| OneClass (T : UClass) (SoftClass : TSoftClassPtr)
| ObjectArray (SoftObjectArray : list TSoftObjectPtr)
| ClassArray (SoftClassArray : list TSoftClassPtr).

Definition RequestAsyncLoad (refs : SoftReferences)
    (DelegateToCall : FStreamableDelegate) : M unit :=
  match refs with
  | OneObject T SoftObject => RequestAsyncLoad_Object T SoftObject DelegateToCall
  | OneClass T SoftClass => RequestAsyncLoad_Class T SoftClass DelegateToCall
  | ObjectArray SoftObjectArray => RequestAsyncLoad_Objects SoftObjectArray DelegateToCall
  | ClassArray SoftClassArray => RequestAsyncLoad_Classes SoftClassArray DelegateToCall
  end.

(** ** Observations on traces *)

(** Every teardown call in the trace is made at a moment when its target is
    no longer in [CreatedObjects]. *)
Definition removed_before_teardown (tr : list Event) : Prop :=
  Forall (λ e, ∀ o, teardown_target (ev_call e) = Some o →
                    o ∉ CreatedObjects (ev_seen e)) tr.

(** Every call in the trace is a teardown of a member of [b], made while the
    box still is [b]. *)
Definition teardown_of_members (b : UCacheBox) (tr : list Event) : Prop :=
  Forall (λ e, ev_seen e = b ∧
               ∃ o, teardown_target (ev_call e) = Some o ∧ o ∈ CreatedObjects b) tr.

(** The four membership sets are empty. *)
Definition drained (b : UCacheBox) : Prop :=
  CreatedObjects b = ∅ ∧ LoadedObjects b = ∅ ∧
  LoadedSoftObjects b = ∅ ∧ LoadedSoftClasses b = ∅.

(** What a weak lambda leaves alone up to its closing [ExecuteIfBound]:
    the engine state, the flags of the box, the requests handed to the
    streamable manager and [CreatedObjects]. *)
Definition lambda_frame (st s : State) : Prop :=
  world s = world st ∧ reclaimed s = reclaimed st ∧
  RF_BeginDestroyed s = RF_BeginDestroyed st ∧
  Streamable (this s) = Streamable (this st) ∧
  CreatedObjects (this s) = CreatedObjects (this st).

(** The branch [RequestAsyncLoad] takes: the targets it submits with the
    lambda it binds, or nothing when no reference is left to load. *)
Definition request_of (refs : SoftReferences) : option (list FSoftObjectPath * Completion) :=
  match refs with
  | OneObject T p =>
      if IsNull p then None else Some ([ToSoftObjectPath p], ObjectLoaded T p)
  | OneClass T p =>
      if IsNull p then None else Some ([ToSoftObjectPath p], ClassLoaded T p)
  | ObjectArray l =>
      if bool_decide (valid_paths l = []) then None
      else Some (valid_paths l, ObjectArrayLoaded (valid_paths l))
  | ClassArray l =>
      if bool_decide (valid_paths l = []) then None
      else Some (valid_paths l, ClassArrayLoaded (valid_paths l))
  end.

(** A run that executed callback [cb] once, on the box as it was in [st],
    and did nothing else: no request submitted, no member changed. *)
Definition immediate_completion (cb : Callback) (st : State)
    (r : unit * State * list Event) : Prop :=
  trace r = [{| ev_call := CallExecute cb; ev_seen := this st |}] ∧
  this (final r) = this st ∧
  submitted st (final r) = [].

(** The box holds object [o] as loaded, with its soft reference in the set
    of object references or of class references. *)
Definition holds_object (b : UCacheBox) (o : UObject) : Prop :=
  o ∈ LoadedObjects b ∧ GetPathName o ∈ LoadedSoftObjects b.

Definition holds_class (b : UCacheBox) (c : UClass) : Prop :=
  c ∈ LoadedObjects b ∧ GetPathName c ∈ LoadedSoftClasses b.

End CacheBox.

Arguments State W : clear implicits.
Arguments M W A : clear implicits.

(** ** A small engine to run the box on *)

Module Sample.

(** Classes [UObject], [AActor], [UUserWidget], [APawn]; a blueprint class
    derived from [AActor] and a mesh asset, both at known paths; every
    spawned actor is a plain [AActor] numbered from 100. *)
Definition UObject_Class : UClass := 1%positive.
Definition AActor_Class : UClass := 2%positive.
Definition UUserWidget_Class : UClass := 3%positive.
Definition APawn_Class : UClass := 4%positive.
Definition BP_Enemy : UClass := 5%positive.
Definition Mesh : UObject := 6%positive.

Definition BP_Enemy_Path : FSoftObjectPath := "/Game/BP_Enemy.BP_Enemy_C".
Definition Mesh_Path : FSoftObjectPath := "/Game/Mesh.Mesh".
Definition Missing_Path : FSoftObjectPath := "/Game/Missing.Missing".

Record World := {
  next_actor : positive;
  garbage : gset UObject
}.

Definition sample_IsA (o : UObject) (T : UClass) : bool :=
  (T =? UObject_Class)%positive
  || ((100 <=? o)%positive && (T =? AActor_Class)%positive).

Definition sample_IsChildOf (c T : UClass) : bool :=
  (c =? T)%positive || (T =? UObject_Class)%positive
  || (((c =? APawn_Class)%positive || (c =? BP_Enemy)%positive)
      && (T =? AActor_Class)%positive).

Definition sample_GetPathName (o : UObject) : FSoftObjectPath :=
  if (o =? BP_Enemy)%positive then BP_Enemy_Path
  else if (o =? Mesh)%positive then Mesh_Path
  else "/Engine/Transient.Object".

Definition sample_ResolveObject (w : World) (p : FSoftObjectPath) : option UObject :=
  if bool_decide (p = BP_Enemy_Path) then Some BP_Enemy
  else if bool_decide (p = Mesh_Path) then Some Mesh
  else None.

Definition sample_SpawnActor (w : World) (c : UClass) : option UObject * World :=
  (Some (next_actor w),
   {| next_actor := Pos.succ (next_actor w); garbage := garbage w |}).

Definition sample_perform (c : EngineCall) (w : World) : World :=
  match c with
  | CallDestroy o | CallConditionalBeginDestroy o | CallMarkAsGarbage o =>
      {| next_actor := next_actor w; garbage := {[o]} ∪ garbage w |}
  | CallRemoveFromParent _ | CallExecute _ => w
  end.

#[export] Instance sample_engine : Engine World := {|
  IsValid := λ w o, bool_decide (o ∉ garbage w);
  IsA := sample_IsA;
  IsChildOf := sample_IsChildOf;
  UUserWidget_StaticClass := UUserWidget_Class;
  AActor_StaticClass := AActor_Class;
  GetPathName := sample_GetPathName;
  ResolveObject := sample_ResolveObject;
  TryLoad := λ w p, (sample_ResolveObject w p, w);
  GetWorld := λ _, true;
  SpawnActor := sample_SpawnActor;
  perform := sample_perform
|}.

(** A new box in a world without garbage. *)
Definition start : State World :=
  {| this := NewCacheBox;
     world := {| next_actor := 100; garbage := ∅ |};
     RF_BeginDestroyed := false;
     reclaimed := false |}.

(** The box after [CreateActor<AActor>(AActor::StaticClass())]. *)
Definition one_actor : State World :=
  final (CreateActor AActor_Class (Some AActor_Class) start).

(** The box after [LoadSynchronous<AActor>] of the blueprint class. *)
Definition enemy_loaded : State World :=
  final (LoadSynchronous_Class AActor_Class BP_Enemy_Path start).

(** The box after [RequestAsyncLoad<AActor>] of the blueprint class with a
    bound delegate, and the request it has submitted. *)
Definition enemy_requested : State World :=
  final (RequestAsyncLoad (OneClass AActor_Class BP_Enemy_Path) (BindStatic 0) start).

Definition enemy_request : AsyncRequest :=
  {| TargetsToStream := [BP_Enemy_Path];
     DelegateToCall :=
       BindWeakLambda (ClassLoaded AActor_Class BP_Enemy_Path) (BindStatic 0) |}.

(** An array request for the mesh, with a null entry and a path that does
    not resolve. *)
Definition mesh_array : list TSoftObjectPtr :=
  [Mesh_Path; EmptyString; Missing_Path].


End Sample.

(** * The rest of CacheBox.h and CacheBox.cpp *)

(** ** What the remaining member functions ask of the engine *)

Class EngineObjects (W : Type) `{!Engine W} := {
  (** [UObject::StaticClass()]: every object is a [UObject] *)
  UObject_StaticClass : UClass;
  IsA_UObject : ∀ o, IsA o UObject_StaticClass = true;
  (** [NewObject<T>(Outer, Class)] *)
  NewObject : W → UClass → UClass → option UObject * W;
  (** the engine's [CreateWidget<WidgetT>(World, UserWidgetClass)] *)
  CreateWidget_InWorld : W → UClass → UClass → option UObject * W;
  (** [UMaterialInstanceDynamic::Create(ParentMaterial, InOuter)] *)
  UMaterialInstanceDynamic_Create :
    W → option UObject → option UObject → option UObject * W
}.

Section CacheBoxRest.

Context {W : Type} `{!Engine W} `{!EngineObjects W}.

#[local] Existing Instance M_ret.

#[local] Existing Instance M_bind.

(** ** Creation (CacheBox.h, lines 201-256; CacheBox.cpp, lines 152-161) *)

Definition CreateObject (T : UClass) (ObjectClass : option UClass)
    : M W (option UObject) :=
  match ObjectClass with
  | Some Class =>
      ask (λ w, IsValid w Class) ≫= λ valid : bool,
      if valid then
        engine (λ w, NewObject w T Class) ≫= λ Object : option UObject,
        match Object with
        | Some o =>
            modify_this (set_CreatedObjects (TSet.Emplace o));;
            mret (Some o)
        | None => mret None
        end
      else mret None
  | None => mret None
  end.

(** Line 247 calls [CreateWidget<WidgetT>(World, UserWidgetClass)] by its
    unqualified name, which inside the class is the name of this member
    function, of one parameter.  The call is taken here as the engine's
    function of two parameters, [CreateWidget_InWorld]; what is proved of
    [CreateWidget] below concerns only the paths that return before that
    call. *)
Definition CreateWidget (WidgetT : UClass) (UserWidgetClass : option UClass)
    : M W (option UObject) :=
  match UserWidgetClass with
  | Some Class =>
      ask (λ w, IsValid w Class) ≫= λ valid : bool,
      if valid then
        ask (λ w, GetWorld w) ≫= λ World : bool,
        if World then
          engine (λ w, CreateWidget_InWorld w WidgetT Class) ≫= λ Widget : option UObject,
          match Widget with
          | Some o =>
              modify_this (set_CreatedObjects (TSet.Emplace o));;
              mret (Some o)
          | None => mret None
          end
        else mret None
      else mret None
  | None => mret None
  end.

Definition CreateMaterialInstanceDynamic (ParentMaterial InOuter : option UObject)
    : M W (option UObject) :=
  engine (λ w, UMaterialInstanceDynamic_Create w ParentMaterial InOuter)
    ≫= λ MaterialInstanceDynamic : option UObject,
  match MaterialInstanceDynamic with
  | Some o =>
      ask (λ w, IsValid w o) ≫= λ valid : bool,
      if valid then
        modify_this (set_CreatedObjects (TSet.Emplace o));;
        mret (Some o)
      else mret None
  | None => mret None
  end.

(** ** Synchronous load of an array (CacheBox.cpp, lines 41-69) *)

(** The element type of both arrays is a soft pointer to [UObject], so the
    single-reference overload is called with [T = UObject]. *)
Definition LoadSynchronous_Objects_item (ObjectToLoad : TSoftObjectPtr) : M W unit :=
  if IsNull ObjectToLoad then mret tt
  else LoadSynchronous_Object UObject_StaticClass ObjectToLoad;; mret tt.

Definition LoadSynchronous_Objects (SoftObjectArray : list TSoftObjectPtr) : M W unit :=
  for_each SoftObjectArray LoadSynchronous_Objects_item.

Definition LoadSynchronous_Classes_item (ClassToLoad : TSoftClassPtr) : M W unit :=
  if IsNull ClassToLoad then mret tt
  else LoadSynchronous_Class UObject_StaticClass ClassToLoad;; mret tt.

Definition LoadSynchronous_Classes (SoftClassArray : list TSoftClassPtr) : M W unit :=
  for_each SoftClassArray LoadSynchronous_Classes_item.

(** ** UCacheBoxComponent (CacheBox.cpp, lines 290-328) *)

(** The box object the component owns: its members and its two flags. *)
Record UCacheBoxObject := {
  members : UCacheBox;
  begun_destroy : bool;
  collected : bool
}.

(** The component: its [CacheBox] pointer, with the object it points to,
    and the engine state. *)
Record UCacheBoxComponent := {
  CacheBox : option UCacheBoxObject;
  engine_state : W
}.

Definition box_state (b : UCacheBoxObject) (w : W) : State W :=
  {| this := members b; world := w;
     RF_BeginDestroyed := begun_destroy b; reclaimed := collected b |}.

Definition box_object (st : State W) : UCacheBoxObject :=
  {| members := this st; begun_destroy := RF_BeginDestroyed st;
     collected := reclaimed st |}.

(** A member function of the box, called through the pointer
    [GetCacheBox()] returns; nothing runs on a null pointer. *)
Definition OnCacheBox {A : Type} (m : M W A) (c : UCacheBoxComponent)
    : option A * UCacheBoxComponent * list Event :=
  match CacheBox c with
  | Some b =>
      let '(a, st, tr) := m (box_state b (engine_state c)) in
      (Some a, {| CacheBox := Some (box_object st); engine_state := world st |}, tr)
  | None => (None, c, [])
  end.

Definition MakeCacheBox (c : UCacheBoxComponent) : UCacheBoxComponent :=
  {| CacheBox := Some {| members := NewCacheBox; begun_destroy := false;
                         collected := false |};
     engine_state := engine_state c |}.

Definition DestroyCacheBox (c : UCacheBoxComponent) : UCacheBoxComponent * list Event :=
  match CacheBox c with
  | Some b =>
      if negb (collected b) then
        let '(_, st, tr) := DestroyBox (box_state b (engine_state c)) in
        ({| CacheBox := None; engine_state := world st |}, tr)
      else ({| CacheBox := None; engine_state := engine_state c |}, [])
  | None => ({| CacheBox := None; engine_state := engine_state c |}, [])
  end.

Definition BeginPlay (c : UCacheBoxComponent) : UCacheBoxComponent :=
  MakeCacheBox c.

Definition EndPlay (c : UCacheBoxComponent) : UCacheBoxComponent * list Event :=
  DestroyCacheBox c.

(** ** Observations *)

(** The objects the teardown calls of a trace are applied to, in order. *)
Definition teardown_targets (tr : list Event) : list UObject :=
  omap (λ e, teardown_target (ev_call e)) tr.

(** The call [DestroyAllObjects] makes on a member it finds valid, by the
    type of the member (CacheBox.cpp, lines 171-181). *)
Definition teardown_call (o : UObject) : EngineCall :=
  if IsA o UUserWidget_StaticClass then CallRemoveFromParent o
  else if IsA o AActor_StaticClass then CallDestroy o
  else CallConditionalBeginDestroy o.

(** The engine state after the calls of a trace, made from [w] on. *)
Definition engine_after (tr : list Event) (w : W) : W :=
  foldl (λ w' e, perform (ev_call e) w') w tr.

(** Among the calls [tr], made on box [b] from the engine state [w] on,
    there is a moment at which [o] is looked at: if it is valid then, the
    next call is the teardown of [o], by its type, made while the box still
    is [b]; if it is not, no call of [tr] is a teardown of [o].  Which
    member is looked at first plays no part in this. *)
Definition torn_down_if_valid (b : UCacheBox) (w : W) (tr : list Event)
    (o : UObject) : Prop :=
  ∃ before rest,
    tr = before ++ rest ∧
    if IsValid (engine_after before w) o
    then ∃ rest', rest = {| ev_call := teardown_call o; ev_seen := b |} :: rest'
    else o ∉ teardown_targets tr.

(** The objects the paths of a list resolve to, in order. *)
Definition resolved (w : W) (paths : list FSoftObjectPath) : list UObject :=
  omap (ResolveObject w) paths.

(** A creation either returned an object and put exactly that object in
    [CreatedObjects], or returned nullptr and left the box as it was; in
    both cases no call was recorded and the flags of the box are as
    before. *)
Definition created_or_unchanged (st : State W)
    (r : option UObject * State W * list Event) : Prop :=
  trace r = [] ∧
  RF_BeginDestroyed (final r) = RF_BeginDestroyed st ∧
  reclaimed (final r) = reclaimed st ∧
  match result r with
  | Some o => this (final r) = set_CreatedObjects (TSet.Emplace o) (this st)
  | None => this (final r) = this st
  end.

(** A teardown that takes effect at once: every outgoing call but
    [MarkAsGarbage] and the execution of a delegate. *)
Definition is_immediate (c : EngineCall) : bool :=
  match c with
  | CallRemoveFromParent _ | CallDestroy _ | CallConditionalBeginDestroy _ => true
  | CallMarkAsGarbage _ | CallExecute _ => false
  end.

(** From [st] to [s] the three loaded sets have only grown, and nothing
    else of the box has changed. *)
Definition loads_only (st s : State W) : Prop :=
  LoadedObjects (this st) ⊆ LoadedObjects (this s) ∧
  LoadedSoftObjects (this st) ⊆ LoadedSoftObjects (this s) ∧
  LoadedSoftClasses (this st) ⊆ LoadedSoftClasses (this s) ∧
  CreatedObjects (this s) = CreatedObjects (this st) ∧
  Streamable (this s) = Streamable (this st) ∧
  RF_BeginDestroyed s = RF_BeginDestroyed st ∧
  reclaimed s = reclaimed st.

(** A class pointer that is null or not valid. *)
Definition invalid_class (w : W) (Class : option UClass) : Prop :=
  match Class with
  | Some c => IsValid w c = false
  | None => True
  end.

(** A weak object pointer that is null or whose object is not valid. *)
Definition stale_handle (w : W) (InObject : option UObject) : Prop :=
  match InObject with
  | Some o => IsValid w o = false
  | None => True
  end.

End CacheBoxRest.

Arguments UCacheBoxComponent W : clear implicits.

(** ** The sample engine, continued *)

Module SampleObjects.

Import Sample.

(** [NewObject] numbers plain objects from 7 up to 99, on the counter of
    the world; there is no user interface, so no widget is ever made; a
    dynamic material instance needs a parent material. *)
Definition sample_NewObject (w : World) (T Class : UClass) : option UObject * World :=
  if (next_actor w <? 193)%positive then
    (Some (next_actor w - 93)%positive,
     {| next_actor := Pos.succ (next_actor w); garbage := garbage w |})
  else (None, w).

Definition sample_MaterialCreate (w : World) (ParentMaterial InOuter : option UObject)
    : option UObject * World :=
  match ParentMaterial with
  | Some _ => sample_NewObject w UObject_Class UObject_Class
  | None => (None, w)
  end.

#[export] Instance sample_objects : EngineObjects World.
Proof.
  refine {| UObject_StaticClass := UObject_Class;
            NewObject := sample_NewObject;
            CreateWidget_InWorld := λ w _ _, (None, w);
            UMaterialInstanceDynamic_Create := sample_MaterialCreate |}.
  intros o. reflexivity.
Defined.

(** The sample engine without a world: [Utils::Common::GetWorld()] is
    null. *)
Definition offline_engine : Engine World := {|
  IsValid := λ w o, bool_decide (o ∉ garbage w);
  IsA := sample_IsA;
  IsChildOf := sample_IsChildOf;
  UUserWidget_StaticClass := UUserWidget_Class;
  AActor_StaticClass := AActor_Class;
  GetPathName := sample_GetPathName;
  ResolveObject := sample_ResolveObject;
  TryLoad := λ w p, (sample_ResolveObject w p, w);
  GetWorld := λ _, false;
  SpawnActor := sample_SpawnActor;
  perform := sample_perform
|}.

(** The box of [one_actor] after the engine has destroyed the actor on its
    own. *)
Definition actor_gone : State World :=
  set_world (sample_perform (CallDestroy 100)) one_actor.

(** The box after [LoadSynchronous] of the mesh. *)
Definition mesh_loaded : State World :=
  final (LoadSynchronous_Object UObject_Class Mesh_Path start).

(** The law of [UObject::StaticClass()] does not depend on the world. *)
#[export] Instance offline_objects : @EngineObjects World offline_engine.
Proof.
  refine {| UObject_StaticClass := UObject_Class;
            NewObject := sample_NewObject;
            CreateWidget_InWorld := λ w _ _, (None, w);
            UMaterialInstanceDynamic_Create := sample_MaterialCreate |}.
  intros o. reflexivity.
Defined.



(** A box that holds a plain object and an actor. *)
Definition object_and_actor : State World :=
  final (CreateActor AActor_Class (Some AActor_Class)
           (final (CreateObject UObject_Class (Some UObject_Class) start))).

(** A component that has begun play and whose box has spawned one actor. *)
Definition playing : UCacheBoxComponent World :=
  (OnCacheBox (CreateActor AActor_Class (Some AActor_Class))
     (BeginPlay {| CacheBox := None; engine_state := world start |})).1.2.

End SampleObjects.

(** * Ecryption.cpp: the encryption helpers *)

Module Ecryption.

(** An [FString] is the list of its [TCHAR] code units, a buffer the list
    of its bytes. *)
Abbreviation FString := (list N) (only parsing).

Definition is_byte (b : N) : Prop := (b < 256)%N.

(** [TEXT("...")] of an ASCII literal. *)
Definition TEXT (s : string) : FString :=
  (λ a, Ascii.N_of_ascii a) <$> String.list_ascii_of_string s.

Definition SPLIT_SYMBOL : FString := TEXT "52168@E4B9!13Fe-33!B0D9CF6!$@!~".

Definition AESBlockSize : nat := 16.

(** ** The engine functions the helpers call *)

(** [StringToBytes] (Containers/UnrealString.h): each character less one,
    as a byte, for at most [MaxBufferSize] characters. *)
Definition StringToBytes (String : FString) (MaxBufferSize : nat) : list N :=
  (λ c, ((c - 1) mod 256)%N) <$> take MaxBufferSize String.

(** [BytesToString]: each of the first [Count] bytes plus one, as a
    character, so that no character is the terminator. *)
Definition BytesToString (In : list N) (Count : nat) : FString :=
  (λ b, (b + 1)%N) <$> take Count In.

(** [Align(Val, Alignment)] for a power of two. *)
Definition Align (Val Alignment : nat) : nat :=
  (Val + Alignment - 1) `div` Alignment * Alignment.

(** [TArray::SetNumZeroed] on a buffer that is not longer than [NewNum]. *)
Definition SetNumZeroed (Buffer : list N) (NewNum : nat) : list N :=
  Buffer ++ replicate (NewNum - length Buffer) 0%N.

(** [FString::Find], case sensitive, from the start. *)
Fixpoint Find (SubStr s : FString) : option nat :=
  if bool_decide (SubStr `prefix_of` s) then Some 0
  else match s with
       | [] => None
       | _ :: s' => S <$> Find SubStr s'
       end.

(** [FString::Split] into a left part that starts empty: what is left of
    the first occurrence, or nothing when there is none. *)
Definition Split_Left (s InS : FString) : FString :=
  match Find InS s with
  | Some InPos => take InPos s
  | None => []
  end.

(** [FAES] and [FBase64]: a block cipher on buffers whose size is a
    multiple of the block size, and an encoding of bytes as text. *)
Class Crypto (FAESKey : Type) := {
  Key_IsValid : FAESKey → bool;
  EncryptData : FAESKey → list N → list N;
  DecryptData : FAESKey → list N → list N;
  Base64_Encode : list N → FString;
  Base64_Decode : FString → option (list N);
  EncryptData_length : ∀ k bs, length (EncryptData k bs) = length bs;
  EncryptData_bytes : ∀ k bs, Forall is_byte bs → Forall is_byte (EncryptData k bs);
  DecryptData_EncryptData : ∀ k bs,
    length bs `mod` AESBlockSize = 0 → Forall is_byte bs →
    DecryptData k (EncryptData k bs) = bs;
  DecryptData_length : ∀ k bs, length (DecryptData k bs) = length bs;
  DecryptData_bytes : ∀ k bs, Forall is_byte bs → Forall is_byte (DecryptData k bs);
  Base64_Decode_Encode : ∀ bs, Forall is_byte bs →
    Base64_Decode (Base64_Encode bs) = Some bs;
  Base64_Encode_empty : ∀ bs, Base64_Encode bs = [] → bs = [];
  Base64_Decode_bytes : ∀ s bs, Base64_Decode s = Some bs → Forall is_byte bs
}.

Section Helpers.

Context {FAESKey : Type} `{!Crypto FAESKey}.

(** ** The helpers (Ecryption.cpp, lines 4-117) *)

Definition Encrypt (InputString : FString) (Key : FAESKey) : FString :=
  if bool_decide (InputString = []) then []
  else if negb (Key_IsValid Key) then []
  else
    let TempString := InputString ++ SPLIT_SYMBOL in
    let BufferSize := length TempString in
    let Buffer := StringToBytes TempString BufferSize in
    let OriginalSize := length Buffer in
    let AlignedSize := Align OriginalSize AESBlockSize in
    let Buffer := SetNumZeroed Buffer AlignedSize in
    let Buffer := EncryptData Key Buffer in
    BytesToString Buffer AlignedSize.

Definition Decrypt (InputString : FString) (Key : FAESKey) : FString :=
  if bool_decide (InputString = []) then []
  else if negb (Key_IsValid Key) then []
  else
    let BufferSize := length InputString in
    if negb (BufferSize `mod` AESBlockSize =? 0) then []
    else
      let Buffer := StringToBytes InputString BufferSize in
      let Buffer := DecryptData Key Buffer in
      let DecryptedString := BytesToString Buffer BufferSize in
      Split_Left DecryptedString SPLIT_SYMBOL.

Definition EncryptBase64 (InputString : FString) (Key : FAESKey) : FString :=
  if bool_decide (InputString = []) then []
  else if negb (Key_IsValid Key) then []
  else
    let TempString := InputString ++ SPLIT_SYMBOL in
    let BufferSize := length TempString in
    let Buffer := StringToBytes TempString BufferSize in
    let OriginalSize := length Buffer in
    let AlignedSize := Align OriginalSize AESBlockSize in
    let Buffer := SetNumZeroed Buffer AlignedSize in
    let Buffer := EncryptData Key Buffer in
    Base64_Encode (take AlignedSize Buffer).

Definition DecryptBase64 (InputString : FString) (Key : FAESKey) : FString :=
  if bool_decide (InputString = []) then []
  else if negb (Key_IsValid Key) then []
  else
    match Base64_Decode InputString with
    | None => []
    | Some Buffer =>
        let BufferSize := length Buffer in
        if negb (BufferSize `mod` AESBlockSize =? 0) then []
        else
          let Buffer := DecryptData Key Buffer in
          let DecryptedString := BytesToString Buffer BufferSize in
          Split_Left DecryptedString SPLIT_SYMBOL
    end.

(** ** Observations *)

(** A character that survives the trip through a byte, and what the trip
    makes of any character. *)
Definition narrow (c : N) : Prop := (1 ≤ c ≤ 256)%N.

Definition through_byte (c : N) : N := ((c - 1) mod 256 + 1)%N.

#[export] Instance narrow_dec (c : N) : Decision (narrow c).
Proof. unfold narrow. apply _. Defined.

(** The zero bytes [Encrypt] appends to a string of [n] characters. *)
Definition padding (n : nat) : nat :=
  Align (n + length SPLIT_SYMBOL) AESBlockSize - (n + length SPLIT_SYMBOL).

End Helpers.

(** A cipher to run the helpers on: the key is a number, valid when not
    zero; a buffer is encrypted by reversing it; a byte is encoded as the
    character one above it. *)
Definition sample_Decode (s : FString) : option (list N) :=
  if bool_decide (Forall (λ c, (1 ≤ c ≤ 256)%N) s)
  then Some ((λ c, (c - 1)%N) <$> s) else None.

#[export] Instance sample_crypto : Crypto N.
Proof.
  refine {| Key_IsValid := λ k, negb (k =? 0)%N;
            EncryptData := λ _ bs, reverse bs;
            DecryptData := λ _ bs, reverse bs;
            Base64_Encode := λ bs, (λ b, (b + 1)%N) <$> bs;
            Base64_Decode := sample_Decode |}.
  - intros _ bs. apply length_reverse.
  - intros _ bs. apply Forall_reverse.
  - intros _ bs _ _. apply reverse_involutive.
  - intros _ bs. apply length_reverse.
  - intros _ bs. apply Forall_reverse.
  - intros bs Hb. unfold sample_Decode.
    rewrite bool_decide_eq_true_2.
    + f_equal. rewrite <- list_fmap_compose. rewrite <- (list_fmap_id bs) at 2.
      apply list_fmap_ext. intros _ b _. cbn. lia.
    + apply Forall_fmap. eapply Forall_impl; [exact Hb|].
      unfold is_byte. cbn. lia.
  - intros bs Hnil. by apply fmap_nil_inv in Hnil.
  - intros s bs. unfold sample_Decode. case_bool_decide as Hs; [|done].
    intros [= <-]. apply Forall_fmap. eapply Forall_impl; [exact Hs|].
    unfold is_byte. cbn. lia.
Defined.

(** A key that is valid, and texts to encrypt. *)
Definition sample_key : N := 7%N.

Definition hello : FString := TEXT "hello".

Definition zhong : FString := [20013%N].

End Ecryption.

(** * Properties *)

Section Properties.

Context {W : Type} `{!Engine W}.

Implicit Types (st later : State W) (tr : list Event) (d : FStreamableDelegate).

(** Unfolding of the monad. *)
Ltac run :=
  repeat (cbn [result final trace fst snd app negb Cast this world RF_BeginDestroyed
                 reclaimed set_this set_world set_BeginDestroyed] in *;
          unfold mbind, mret, M_bind, M_ret, get_this, modify_this, ask,
            engine, call, Streamable_RequestAsyncLoad,
            TWeakObjectPtr_Get, TWeakObjectPtr_IsValid in *;
          cbn beta iota in *).

(** ** Loops *)

Lemma for_each_invariant {A : Type} (P : State W → Prop) (Q : Event → Prop)
    (body : A → M W unit) (l : list A) :
  (∀ x st, x ∈ l → P st →
     P (final (body x st)) ∧ Forall Q (trace (body x st))) →
  ∀ st, P st →
    P (final (for_each l body st)) ∧ Forall Q (trace (for_each l body st)).
Proof.
  induction l as [|x l IH]; intros Hbody st HP.
  - split; [exact HP | constructor].
  - cbn [for_each]. run.
    destruct (Hbody x st) as [HP1 HQ1]; [left | exact HP |].
    destruct (body x st) as [[[] st1] tr1] eqn:E1; run.
    destruct (IH (λ y s Hy, Hbody y s (list_elem_of_further _ _ _ Hy)) st1 HP1)
      as [HP2 HQ2].
    destruct (for_each l body st1) as [[[] st2] tr2]; run.
    split; [exact HP2 | apply Forall_app; auto].
Qed.

Lemma for_each_silent {A : Type} (P : State W → Prop) (body : A → M W unit)
    (l : list A) :
  (∀ x st, P st → P (final (body x st)) ∧ trace (body x st) = []) →
  ∀ st, P st →
    P (final (for_each l body st)) ∧ trace (for_each l body st) = [].
Proof.
  intros Hbody. induction l as [|x l IH]; intros st HP.
  - split; [exact HP | reflexivity].
  - cbn [for_each]. run.
    destruct (Hbody x st HP) as [HP1 HQ1].
    destruct (body x st) as [[[] st1] tr1]; run. subst tr1.
    destruct (IH st1 HP1) as [HP2 HQ2].
    destruct (for_each l body st1) as [[[] st2] tr2]; run.
    split; [exact HP2 | exact HQ2].
Qed.

(** ** Frame *)

Lemma DestroyAllObjects_item_spec (o : UObject) st :
  this (final (DestroyAllObjects_item o st)) = this st ∧
  RF_BeginDestroyed (final (DestroyAllObjects_item o st)) = RF_BeginDestroyed st ∧
  reclaimed (final (DestroyAllObjects_item o st)) = reclaimed st ∧
  Forall (λ e, ev_seen e = this st ∧ teardown_target (ev_call e) = Some o)
    (trace (DestroyAllObjects_item o st)).
Proof.
  unfold DestroyAllObjects_item. run.
  destruct (IsValid (world st) o); run; [|by repeat split].
  destruct (IsA o UUserWidget_StaticClass); [|destruct (IsA o AActor_StaticClass)];
    run; repeat split; repeat constructor.
Qed.

Lemma DestroyAllObjects_loop (l : list UObject) st :
  let r := for_each l DestroyAllObjects_item st in
  (this (final r) = this st ∧
   RF_BeginDestroyed (final r) = RF_BeginDestroyed st ∧
   reclaimed (final r) = reclaimed st) ∧
  Forall (λ e, ev_seen e = this st ∧
               ∃ o, teardown_target (ev_call e) = Some o ∧ o ∈ l) (trace r).
Proof.
  apply (for_each_invariant
    (λ s, this s = this st ∧ RF_BeginDestroyed s = RF_BeginDestroyed st ∧
          reclaimed s = reclaimed st)); [|done].
  intros x s Hx (Hb & Hf & Hr).
  destruct (DestroyAllObjects_item_spec x s) as (H1 & H2 & H3 & H4).
  split; [repeat split; congruence|].
  eapply Forall_impl; [exact H4|].
  intros e [He1 He2]. split; [congruence | eauto].
Qed.

Lemma DestroyAllObjects_spec st :
  let r := DestroyAllObjects st in
  this (final r) = set_CreatedObjects TSet.Empty (this st) ∧
  RF_BeginDestroyed (final r) = RF_BeginDestroyed st ∧
  reclaimed (final r) = reclaimed st ∧
  teardown_of_members (this st) (trace r).
Proof.
  unfold DestroyAllObjects. run.
  destruct (DestroyAllObjects_loop (elements (CreatedObjects (this st))) st)
    as ((Hb & Hf & Hr) & Htr).
  destruct (for_each _ _ st) as [[[] st1] tr1]; run.
  rewrite app_nil_r. cbn. repeat split; [by rewrite Hb | done | done |].
  eapply Forall_impl; [exact Htr|].
  intros e (He & o & Ho & Hin). split; [done|].
  exists o. split; [done | by apply elem_of_elements].
Qed.

(** What one turn of the loop of [DestroyAllObjects] does: one call, the
    one of the member's type, if the member is valid, and none otherwise. *)
Lemma DestroyAllObjects_item_run (o : UObject) st :
  let r := DestroyAllObjects_item o st in
  this (final r) = this st ∧
  world (final r) = engine_after (trace r) (world st) ∧
  trace r = if IsValid (world st) o
            then [{| ev_call := teardown_call o; ev_seen := this st |}]
            else [].
Proof.
  unfold DestroyAllObjects_item, teardown_call, engine_after. run.
  destruct (IsValid (world st) o); run; [|done].
  by destruct (IsA o UUserWidget_StaticClass);
    [|destruct (IsA o AActor_StaticClass)].
Qed.

Lemma engine_after_app (tr1 tr2 : list Event) (w : W) :
  engine_after (tr1 ++ tr2) w = engine_after tr2 (engine_after tr1 w).
Proof. unfold engine_after. apply foldl_app. Qed.

Lemma DestroyAllObjects_item_targets (x o : UObject) st :
  o ∈ teardown_targets (trace (DestroyAllObjects_item x st)) → o = x.
Proof.
  intros (e & He & Ho)%list_elem_of_omap.
  destruct (DestroyAllObjects_item_spec x st) as (_ & _ & _ & Hall).
  rewrite Forall_forall in Hall. destruct (Hall e He) as [_ Hx]. congruence.
Qed.

Lemma DestroyAllObjects_loop_targets (l : list UObject) (o : UObject) st :
  o ∈ teardown_targets (trace (for_each l DestroyAllObjects_item st)) → o ∈ l.
Proof.
  intros (e & He & Ho)%list_elem_of_omap.
  destruct (DestroyAllObjects_loop l st) as [_ Hall].
  rewrite Forall_forall in Hall. destruct (Hall e He) as (_ & o' & Ho' & Hin).
  congruence.
Qed.

(** The loop comes to every entry of the list it runs over, once. *)
Lemma DestroyAllObjects_loop_run (l : list UObject) st :
  NoDup l →
  let r := for_each l DestroyAllObjects_item st in
  world (final r) = engine_after (trace r) (world st) ∧
  ∀ o, o ∈ l → torn_down_if_valid (this st) (world st) (trace r) o.
Proof.
  intros Hnd. revert st. induction Hnd as [|x l Hx Hnd IH]; intros st; cbn zeta.
  - split; [done|]. by intros o ?%elem_of_nil.
  - destruct (DestroyAllObjects_item_run x st) as (Hb & Hw & Htr).
    destruct (IH (final (DestroyAllObjects_item x st))) as [Hw2 Hall].
    pose proof (λ o, DestroyAllObjects_item_targets x o st) as Hone.
    pose proof (λ o, DestroyAllObjects_loop_targets l o
                       (final (DestroyAllObjects_item x st))) as Hrest.
    cbn [for_each]. run.
    destruct (DestroyAllObjects_item x st) as [[[] st1] tr1]; run.
    destruct (for_each l DestroyAllObjects_item st1) as [[[] st2] tr2]; run.
    split; [by rewrite engine_after_app, <- Hw|].
    intros o [->|Hin]%elem_of_cons.
    + exists [], (tr1 ++ tr2). split; [done|]. cbn [engine_after foldl].
      destruct (IsValid (world st) x); subst tr1; [by eexists|].
      intros Hin. by apply Hx, Hrest.
    + destruct (Hall o Hin) as (before & rest & Heq & Hcase).
      exists (tr1 ++ before), rest. split; [by rewrite Heq, app_assoc|].
      rewrite engine_after_app, <- Hw, <- Hb.
      destruct (IsValid (engine_after before (world st1)) o); [exact Hcase|].
      unfold teardown_targets in *. rewrite omap_app.
      intros [Hin1|Hin2]%elem_of_app; [|by apply Hcase].
      apply Hone in Hin1. by subst.
Qed.

Lemma DestroyAllObjects_run st :
  let r := DestroyAllObjects st in
  world (final r) = engine_after (trace r) (world st) ∧
  ∀ o, o ∈ CreatedObjects (this st) →
       torn_down_if_valid (this st) (world st) (trace r) o.
Proof.
  unfold DestroyAllObjects. run.
  destruct (DestroyAllObjects_loop_run (elements (CreatedObjects (this st))) st
              (NoDup_elements _)) as [Hw Hall].
  destruct (for_each _ _ st) as [[[] st1] tr1]; run.
  rewrite app_nil_r. split; [done|].
  intros o Ho. by apply Hall, elem_of_elements.
Qed.

Lemma UnloadAllObjects_spec st :
  UnloadAllObjects st =
    (tt, set_this (λ b, set_LoadedSoftClasses TSet.Empty
                          (set_LoadedSoftObjects TSet.Empty
                             (set_LoadedObjects TSet.Empty b))) st, []).
Proof. reflexivity. Qed.

Lemma DestroyObject_spec (InObject : option UObject) (bPure : bool) st :
  let r := DestroyObject InObject bPure st in
  this (final r) =
    set_CreatedObjects
      (TSet.RemovePtr (match InObject with
                       | Some o => if IsValid (world st) o then Some o else None
                       | None => None
                       end)) (this st) ∧
  removed_before_teardown (trace r).
Proof.
  unfold DestroyObject, removed_before_teardown. run.
  destruct InObject as [o|]; run; [|split; [done | constructor]].
  destruct (IsValid (world st) o); run; [|split; [done | constructor]].
  assert (Hgone : o ∉ CreatedObjects (set_CreatedObjects (TSet.RemovePtr (Some o)) (this st))).
  { cbn. unfold TSet.Remove. intros [_ Hn]%elem_of_difference.
    apply Hn. by apply elem_of_singleton. }
  destruct (IsA o UUserWidget_StaticClass);
    [|destruct (IsA o AActor_StaticClass); [|destruct bPure]];
    run; (split; [done|]); repeat constructor; cbn; intros ? [= <-]; exact Hgone.
Qed.

(** C10. The created and the loaded halves of the box do not interfere:
    [UnloadObject], [UnloadClass] and [UnloadAllObjects] leave
    [CreatedObjects] as it is, and [DestroyObject] and [DestroyAllObjects]
    leave [LoadedObjects], [LoadedSoftObjects] and [LoadedSoftClasses] as
    they are. *)
Theorem unload_and_destroy_frames (InSoft : TSoftObjectPtr)
    (InObject : option UObject) (bPure : bool) st :
  CreatedObjects (this (final (UnloadObject InSoft st))) = CreatedObjects (this st) ∧
  CreatedObjects (this (final (UnloadClass InSoft st))) = CreatedObjects (this st) ∧
  CreatedObjects (this (final (UnloadAllObjects st))) = CreatedObjects (this st) ∧
  (let b := this (final (DestroyObject InObject bPure st)) in
   LoadedObjects b = LoadedObjects (this st) ∧
   LoadedSoftObjects b = LoadedSoftObjects (this st) ∧
   LoadedSoftClasses b = LoadedSoftClasses (this st)) ∧
  (let b := this (final (DestroyAllObjects st)) in
   LoadedObjects b = LoadedObjects (this st) ∧
   LoadedSoftObjects b = LoadedSoftObjects (this st) ∧
   LoadedSoftClasses b = LoadedSoftClasses (this st)).
Proof.
  repeat apply conj.
  - unfold UnloadObject. run. by destruct (ResolveObject (world st) InSoft).
  - unfold UnloadClass. run. by destruct (ResolveObject (world st) InSoft).
  - by rewrite UnloadAllObjects_spec.
  - by destruct (DestroyObject_spec InObject bPure st) as [-> _].
  - by destruct (DestroyObject_spec InObject bPure st) as [-> _].
  - by destruct (DestroyObject_spec InObject bPure st) as [-> _].
  - by destruct (DestroyAllObjects_spec st) as [-> _].
  - by destruct (DestroyAllObjects_spec st) as [-> _].
  - by destruct (DestroyAllObjects_spec st) as [-> _].
Qed.

(** ** Synchronous load *)

(** C2. Single-reference [LoadSynchronous], on an object or a class
    reference, either returns the object the engine resolved, which is then
    a member of [LoadedObjects] and, as a soft reference, of the soft
    reference set of its kind, or returns nullptr and leaves the box as it
    was. *)
Theorem LoadSynchronous_loaded_or_unchanged (T : UClass) (Soft : TSoftObjectPtr) st :
  (let r := LoadSynchronous_Object T Soft st in
   match result r with
   | Some o =>
       (TryLoad (world st) Soft).1 = Some o ∧
       o ∈ LoadedObjects (this (final r)) ∧
       GetPathName o ∈ LoadedSoftObjects (this (final r))
   | None => this (final r) = this st
   end) ∧
  (let r := LoadSynchronous_Class T Soft st in
   match result r with
   | Some c =>
       (TryLoad (world st) Soft).1 = Some c ∧
       c ∈ LoadedObjects (this (final r)) ∧
       GetPathName c ∈ LoadedSoftClasses (this (final r))
   | None => this (final r) = this st
   end).
Proof.
  split.
  - unfold LoadSynchronous_Object.
    destruct (IsNull Soft); run; [done|].
    destruct (TryLoad (world st) Soft) as [[o|] w]; run; [|done].
    destruct (IsA o T); run; [|done].
    repeat split; cbn; unfold TSet.Emplace;
      apply elem_of_union_l; by apply elem_of_singleton.
  - unfold LoadSynchronous_Class.
    destruct (IsNull Soft); run; [done|].
    destruct (TryLoad (world st) Soft) as [[c|] w]; run; [|done].
    destruct (IsChildOf c T); run; [|done].
    repeat split; cbn; unfold TSet.Emplace;
      apply elem_of_union_l; by apply elem_of_singleton.
Qed.

(** ** Creation *)

(** C8. When [SpawnActor] succeeds and the cast to the requested type
    fails, [CreateActor] returns nullptr, adds nothing to the box, and makes
    no further call: the actor stays in the world as the spawn left it. *)
Theorem CreateActor_cast_failure (T Class : UClass) (Actor : UObject) (w' : W) st :
  IsValid (world st) Class = true →
  GetWorld (world st) = true →
  SpawnActor (world st) Class = (Some Actor, w') →
  IsA Actor T = false →
  let r := CreateActor T (Some Class) st in
  result r = None ∧ this (final r) = this st ∧
  world (final r) = w' ∧ trace r = [].
Proof.
  intros Hv Hw Hs Hc. unfold CreateActor. run.
  rewrite Hv, Hw, Hs. run. rewrite Hc. run. done.
Qed.

(** ** Teardown order *)

(** [DestroyObject] on a valid object makes one call, a teardown of that
    object. *)
Lemma DestroyObject_one_call (o : UObject) (bPure : bool) st :
  IsValid (world st) o = true →
  ∃ e, trace (DestroyObject (Some o) bPure st) = [e] ∧
       teardown_target (ev_call e) = Some o.
Proof.
  intros Hv. unfold DestroyObject. run. rewrite Hv. run.
  destruct (IsA o UUserWidget_StaticClass);
    [|destruct (IsA o AActor_StaticClass); [|destruct bPure]];
    run; by eexists.
Qed.

(** C3, amended. [DestroyObject] removes the object from [CreatedObjects]
    before its teardown, and on a valid object it does make that teardown
    call, and only that one.  [DestroyAllObjects] makes teardown calls on
    members only, each while all members, the one torn down included, are
    still in the set; it comes to every member, and a member it finds valid
    it tears down with the call of its type; it empties the set after the
    loop. *)
Theorem destroy_order (InObject : option UObject) (bPure : bool) st :
  removed_before_teardown (trace (DestroyObject InObject bPure st)) ∧
  (∀ o, InObject = Some o → IsValid (world st) o = true →
        ∃ e, trace (DestroyObject InObject bPure st) = [e] ∧
             teardown_target (ev_call e) = Some o ∧
             o ∉ CreatedObjects (ev_seen e)) ∧
  teardown_of_members (this st) (trace (DestroyAllObjects st)) ∧
  (∀ o, o ∈ CreatedObjects (this st) →
        torn_down_if_valid (this st) (world st) (trace (DestroyAllObjects st)) o) ∧
  CreatedObjects (this (final (DestroyAllObjects st))) = ∅.
Proof.
  destruct (DestroyObject_spec InObject bPure st) as [_ Hgone].
  split; [exact Hgone|]. split.
  - intros o -> Hv.
    destruct (DestroyObject_one_call o bPure st Hv) as (e & He & Ho).
    exists e. split; [exact He|]. split; [exact Ho|].
    rewrite He in Hgone. apply Forall_cons in Hgone as [Hgone _].
    by apply Hgone.
  - destruct (DestroyAllObjects_spec st) as (Hb & _ & _ & Htr).
    split; [exact Htr|]. split; [apply DestroyAllObjects_run | by rewrite Hb].
Qed.

(** ** Teardown of the box *)

Lemma teardown_of_no_members (b : UCacheBox) tr :
  CreatedObjects b = ∅ → teardown_of_members b tr → tr = [].
Proof.
  intros He Htr. destruct tr as [|e tr]; [done|].
  apply Forall_cons in Htr as [(_ & o & _ & Ho) _].
  rewrite He in Ho. by apply not_elem_of_empty in Ho.
Qed.

Lemma BeginDestroy_spec st :
  let r := BeginDestroy st in
  drained (this (final r)) ∧
  RF_BeginDestroyed (final r) = RF_BeginDestroyed st ∧
  (CreatedObjects (this st) = ∅ → trace r = []).
Proof.
  unfold BeginDestroy. run.
  destruct (DestroyAllObjects_spec st) as (Hb & Hf & _ & Htr).
  destruct (DestroyAllObjects st) as [[[] st1] tr1]; run.
  rewrite UnloadAllObjects_spec, app_nil_r. run.
  split; [by rewrite Hb|]. split; [done|].
  intros He. by eapply teardown_of_no_members.
Qed.

(** C9. After a first [DestroyBox] the four sets are empty, and a second
    [DestroyBox] returns false without any call and without any change;
    even [BeginDestroy] run once more would tear nothing down and leave the
    sets empty. *)
Theorem DestroyBox_idempotent st :
  RF_BeginDestroyed st = false →
  let first := DestroyBox st in
  let second := DestroyBox (final first) in
  drained (this (final first)) ∧
  result second = false ∧ trace second = [] ∧ final second = final first ∧
  trace (BeginDestroy (final first)) = [] ∧
  drained (this (final (BeginDestroy (final first)))).
Proof.
  intros Hf. unfold DestroyBox, ConditionalBeginDestroy. run. rewrite Hf. run.
  destruct (BeginDestroy_spec (set_BeginDestroyed st)) as (Hd & Hflag & _).
  destruct (BeginDestroy (set_BeginDestroyed st)) as [[[] st1] tr1]; run.
  rewrite Hflag. run.
  destruct (BeginDestroy_spec st1) as (Hd2 & _ & Htr2).
  repeat split; try apply Hd; try apply Hd2.
  apply Htr2, Hd.
Qed.

(** ** Asynchronous load *)

Lemma ObjectArrayLoaded_item_frame st (p : FSoftObjectPath) (s : State W) :
  lambda_frame st s →
  lambda_frame st (final (ObjectArrayLoaded_item p s)) ∧
  trace (ObjectArrayLoaded_item p s) = [].
Proof.
  intros HP. unfold ObjectArrayLoaded_item. run.
  by destruct (ResolveObject (world s) p).
Qed.

Lemma ClassArrayLoaded_item_frame st (p : FSoftObjectPath) (s : State W) :
  lambda_frame st s →
  lambda_frame st (final (ClassArrayLoaded_item p s)) ∧
  trace (ClassArrayLoaded_item p s) = [].
Proof.
  intros HP. unfold ClassArrayLoaded_item. run.
  by destruct (ResolveObject (world s) p).
Qed.

Lemma lambda_body_frame (body : Completion) st :
  lambda_frame st (final (lambda_body body st)) ∧ trace (lambda_body body st) = [].
Proof.
  assert (H0 : lambda_frame st st) by done.
  destruct body as [l|l|T p|T p]; cbn [lambda_body].
  - apply (for_each_silent (lambda_frame st)); [|done].
    intros. by apply ObjectArrayLoaded_item_frame.
  - apply (for_each_silent (lambda_frame st)); [|done].
    intros. by apply ClassArrayLoaded_item_frame.
  - run. destruct (ResolveObject (world st) p) as [o|]; run; [|done].
    by destruct (IsA o T).
  - run. destruct (ResolveObject (world st) p) as [c|]; run; [|done].
    by destruct (IsChildOf c T).
Qed.

Lemma ExecuteIfBound_Streamable d st :
  Streamable (this (final (ExecuteIfBound d st))) = Streamable (this st).
Proof.
  revert st. induction d as [|cb|body d IH]; intros st; cbn [ExecuteIfBound]; run.
  - done.
  - done.
  - destruct (reclaimed st); [done|].
    destruct (lambda_body_frame body st) as [(_ & _ & _ & Hq & _) _].
    destruct (lambda_body body st) as [[[] st1] tr1]; run.
    specialize (IH st1).
    destruct (ExecuteIfBound d st1) as [[[] st2] tr2]; run. congruence.
Qed.

Lemma submitted_none st (s : State W) :
  Streamable (this s) = Streamable (this st) → submitted st s = [].
Proof. intros Hq. unfold submitted. rewrite Hq. apply drop_all. Qed.

Lemma submitted_one (Targets : list FSoftObjectPath) d st :
  submitted st (final (Streamable_RequestAsyncLoad Targets d st)) =
    [{| TargetsToStream := Targets; DelegateToCall := d |}].
Proof. unfold submitted. run. cbn. by rewrite drop_app_length. Qed.

Lemma RequestAsyncLoad_cases (refs : SoftReferences) d st :
  RequestAsyncLoad refs d st =
    match request_of refs with
    | Some (Targets, body) =>
        Streamable_RequestAsyncLoad Targets (BindWeakLambda body d) st
    | None => ExecuteIfBound d st
    end.
Proof.
  destruct refs as [T p|T p|l|l]; cbn [RequestAsyncLoad request_of];
    unfold RequestAsyncLoad_Object, RequestAsyncLoad_Class,
      RequestAsyncLoad_Objects, RequestAsyncLoad_Classes; cbn zeta.
  - by destruct (IsNull p).
  - by destruct (IsNull p).
  - by destruct (bool_decide (valid_paths l = [])).
  - by destruct (bool_decide (valid_paths l = [])).
Qed.

Lemma valid_paths_all_null (batch : list TSoftObjectPtr) :
  Forall (λ p, IsNull p = true) batch → valid_paths batch = [].
Proof.
  intros Hall. unfold valid_paths.
  induction Hall as [|p l Hp _ IH]; [done|].
  rewrite filter_cons_False; [exact IH | congruence].
Qed.

(** C1. [RequestAsyncLoad] with a bound delegate has the delegate executed
    exactly once: at once when no reference is left after the null ones are
    dropped, and otherwise not at once but once when the streamable manager
    signals the completion of the one request submitted, whatever resolves
    then, as long as the box has not been reclaimed. *)
Theorem RequestAsyncLoad_executes_once (refs : SoftReferences) (cb : Callback) st later :
  reclaimed later = false →
  let r := RequestAsyncLoad refs (BindStatic cb) st in
  (submitted st (final r) = [] ∧ executions cb (trace r) = 1) ∨
  (∃ req, submitted st (final r) = [req] ∧ executions cb (trace r) = 0 ∧
          executions cb (trace (SignalCompletion req later)) = 1).
Proof.
  intros Halive. cbn zeta. rewrite RequestAsyncLoad_cases.
  destruct (request_of refs) as [[Targets body]|].
  - right. eexists. split; [apply submitted_one|]. split; [done|].
    unfold SignalCompletion. cbn [DelegateToCall ExecuteIfBound].
    rewrite Halive. run.
    destruct (lambda_body_frame body later) as [_ Htr].
    destruct (lambda_body body later) as [[[] st1] tr1]; run. subst tr1.
    unfold executions, is_execute. cbn. by rewrite bool_decide_eq_true_2.
  - left. cbn [ExecuteIfBound]. run. split; [by apply submitted_none|].
    unfold executions, is_execute. cbn. by rewrite bool_decide_eq_true_2.
Qed.

(** C6. When every reference of an array is null, the empty array
    included, [RequestAsyncLoad] executes the delegate before it returns,
    with the box as it was, submits no request and changes no set. *)
Theorem RequestAsyncLoad_all_null (batch : list TSoftObjectPtr) (cb : Callback) st :
  Forall (λ p, IsNull p = true) batch →
  immediate_completion cb st (RequestAsyncLoad (ObjectArray batch) (BindStatic cb) st) ∧
  immediate_completion cb st (RequestAsyncLoad (ClassArray batch) (BindStatic cb) st).
Proof.
  intros Hall. rewrite !RequestAsyncLoad_cases. cbn [request_of].
  rewrite (valid_paths_all_null _ Hall). cbn [ExecuteIfBound].
  unfold immediate_completion. run.
  repeat split; by apply submitted_none.
Qed.

(** Once the box has been reclaimed, the completion of a request it had
    submitted, whichever overload submitted it, does nothing: the lambda
    does not run, no set is touched and no call is made. *)
Lemma reclaimed_box_drops_completion (refs : SoftReferences) d
    (req : AsyncRequest) st later :
  req ∈ submitted st (final (RequestAsyncLoad refs d st)) →
  reclaimed later = true →
  SignalCompletion req later = (tt, later, []).
Proof.
  rewrite RequestAsyncLoad_cases.
  destruct (request_of refs) as [[Targets body]|].
  - rewrite submitted_one. intros ->%list_elem_of_singleton Hgone.
    unfold SignalCompletion. cbn [DelegateToCall ExecuteIfBound].
    by rewrite Hgone.
  - rewrite submitted_none; [|apply ExecuteIfBound_Streamable].
    by intros ?%elem_of_nil.
Qed.

(** ** What the lambdas of the array overloads and of the single object
    overload add before they execute the caller's delegate *)

Lemma ObjectArrayLoaded_item_adds (p : FSoftObjectPath) st :
  let b' := this (final (ObjectArrayLoaded_item p st)) in
  LoadedObjects (this st) ⊆ LoadedObjects b' ∧
  LoadedSoftObjects (this st) ⊆ LoadedSoftObjects b' ∧
  ∀ o, ResolveObject (world st) p = Some o → holds_object b' o.
Proof.
  unfold ObjectArrayLoaded_item, holds_object. run.
  destruct (ResolveObject (world st) p) as [o|]; run; cbn; unfold TSet.Emplace.
  - split; [apply union_subseteq_r|]. split; [apply union_subseteq_r|].
    intros ? [= <-]. split; apply elem_of_union_l; by apply elem_of_singleton.
  - done.
Qed.

Lemma ClassArrayLoaded_item_adds (p : FSoftObjectPath) st :
  let b' := this (final (ClassArrayLoaded_item p st)) in
  LoadedObjects (this st) ⊆ LoadedObjects b' ∧
  LoadedSoftClasses (this st) ⊆ LoadedSoftClasses b' ∧
  ∀ c, ResolveObject (world st) p = Some c → holds_class b' c.
Proof.
  unfold ClassArrayLoaded_item, holds_class. run.
  destruct (ResolveObject (world st) p) as [c|]; run; cbn; unfold TSet.Emplace.
  - split; [apply union_subseteq_r|]. split; [apply union_subseteq_r|].
    intros ? [= <-]. split; apply elem_of_union_l; by apply elem_of_singleton.
  - done.
Qed.

Lemma ObjectArrayLoaded_loop (l : list FSoftObjectPath) st :
  let b' := this (final (for_each l ObjectArrayLoaded_item st)) in
  LoadedObjects (this st) ⊆ LoadedObjects b' ∧
  LoadedSoftObjects (this st) ⊆ LoadedSoftObjects b' ∧
  ∀ p o, p ∈ l → ResolveObject (world st) p = Some o → holds_object b' o.
Proof.
  revert st. induction l as [|x l IH]; intros st; cbn [for_each]; run.
  - split; [done|]. split; [done|]. by intros p o ?%elem_of_nil.
  - destruct (ObjectArrayLoaded_item_adds x st) as (H1 & H2 & H3).
    destruct (ObjectArrayLoaded_item_frame st x st) as [(Hw & _) _]; [done|].
    destruct (ObjectArrayLoaded_item x st) as [[[] st1] tr1]; run.
    destruct (IH st1) as (I1 & I2 & I3).
    destruct (for_each l ObjectArrayLoaded_item st1) as [[[] st2] tr2]; run.
    split; [by etrans|]. split; [by etrans|].
    intros p o [->|Hp]%elem_of_cons Hres.
    + destruct (H3 o Hres) as [Ha Hb]. split; [by apply I1 | by apply I2].
    + apply (I3 p o Hp). by rewrite Hw.
Qed.

Lemma ClassArrayLoaded_loop (l : list FSoftObjectPath) st :
  let b' := this (final (for_each l ClassArrayLoaded_item st)) in
  LoadedObjects (this st) ⊆ LoadedObjects b' ∧
  LoadedSoftClasses (this st) ⊆ LoadedSoftClasses b' ∧
  ∀ p c, p ∈ l → ResolveObject (world st) p = Some c → holds_class b' c.
Proof.
  revert st. induction l as [|x l IH]; intros st; cbn [for_each]; run.
  - split; [done|]. split; [done|]. by intros p o ?%elem_of_nil.
  - destruct (ClassArrayLoaded_item_adds x st) as (H1 & H2 & H3).
    destruct (ClassArrayLoaded_item_frame st x st) as [(Hw & _) _]; [done|].
    destruct (ClassArrayLoaded_item x st) as [[[] st1] tr1]; run.
    destruct (IH st1) as (I1 & I2 & I3).
    destruct (for_each l ClassArrayLoaded_item st1) as [[[] st2] tr2]; run.
    split; [by etrans|]. split; [by etrans|].
    intros p c [->|Hp]%elem_of_cons Hres.
    + destruct (H3 c Hres) as [Ha Hb]. split; [by apply I1 | by apply I2].
    + apply (I3 p c Hp). by rewrite Hw.
Qed.

(** The delegate of a live box's lambda is executed once, on the box the
    lambda body has left. *)
Lemma weak_lambda_trace (body : Completion) (cb : Callback) later :
  reclaimed later = false →
  trace (ExecuteIfBound (BindWeakLambda body (BindStatic cb)) later) =
    [{| ev_call := CallExecute cb; ev_seen := this (final (lambda_body body later)) |}].
Proof.
  intros Halive. cbn [ExecuteIfBound]. rewrite Halive. run.
  destruct (lambda_body_frame body later) as [_ Htr].
  destruct (lambda_body body later) as [[[] st1] tr1]; run. by subst tr1.
Qed.

(** Both array overloads and the single object overload: every object that
    resolves at completion is in [LoadedObjects] and in the soft reference
    set of its kind when the caller's delegate is executed. *)
Lemma completion_adds_then_executes (paths : list FSoftObjectPath)
    (T : UClass) (Soft : TSoftObjectPtr) (cb : Callback) later :
  reclaimed later = false →
  (∃ b, trace (ExecuteIfBound (BindWeakLambda (ObjectArrayLoaded paths) (BindStatic cb)) later)
          = [{| ev_call := CallExecute cb; ev_seen := b |}] ∧
        ∀ p o, p ∈ paths → ResolveObject (world later) p = Some o → holds_object b o) ∧
  (∃ b, trace (ExecuteIfBound (BindWeakLambda (ClassArrayLoaded paths) (BindStatic cb)) later)
          = [{| ev_call := CallExecute cb; ev_seen := b |}] ∧
        ∀ p c, p ∈ paths → ResolveObject (world later) p = Some c → holds_class b c) ∧
  (∃ b, trace (ExecuteIfBound (BindWeakLambda (ObjectLoaded T Soft) (BindStatic cb)) later)
          = [{| ev_call := CallExecute cb; ev_seen := b |}] ∧
        ∀ o, Cast T (ResolveObject (world later) Soft) = Some o → holds_object b o).
Proof.
  intros Halive. repeat split; eexists; (split; [by apply weak_lambda_trace|]).
  - apply ObjectArrayLoaded_loop.
  - apply ClassArrayLoaded_loop.
  - intros o Ho. cbn [lambda_body]. run. rewrite Ho. run.
    unfold holds_object, TSet.Emplace. cbn.
    split; apply elem_of_union_l; by apply elem_of_singleton.
Qed.


(** [UnloadClass] never changes [LoadedObjects], and does nothing at all
    when the reference does not resolve. *)
Lemma UnloadClass_spec (InObject : TSoftClassPtr) st :
  LoadedObjects (this (final (UnloadClass InObject st))) = LoadedObjects (this st) ∧
  (ResolveObject (world st) InObject = None →
   UnloadClass InObject st = (tt, st, [])).
Proof.
  unfold UnloadClass. run.
  destruct (ResolveObject (world st) InObject); by split.
Qed.

(** The lambda of the single class overload never changes [LoadedObjects]. *)
Lemma ClassLoaded_LoadedObjects (T : UClass) (SoftClass : TSoftClassPtr) st :
  LoadedObjects (this (final (lambda_body (ClassLoaded T SoftClass) st))) =
  LoadedObjects (this st).
Proof.
  cbn [lambda_body]. run.
  destruct (ResolveObject (world st) SoftClass) as [c|]; run; [|done].
  by destruct (IsChildOf c T).
Qed.

End Properties.

(** * Runs on the sample engine *)

Section Runs.

Import Sample.

(** [elem_of] on the sets of a computed box, decided by evaluation. *)
Ltac member := refine (bool_decide_unpack _ _); vm_compute; exact I.

(** C3, as stated, fails for [DestroyAllObjects]: the actor of a box that
    holds one actor is destroyed while it is still in [CreatedObjects]. *)
Lemma DestroyAllObjects_tears_down_members :
  ¬ removed_before_teardown (trace (DestroyAllObjects one_actor)).
Proof.
  assert (Htr : trace (DestroyAllObjects one_actor) =
            [{| ev_call := CallDestroy 100; ev_seen := this one_actor |}]).
  { vm_compute. reflexivity. }
  rewrite Htr. intros Hall.
  apply Forall_cons in Hall as [Hgone _].
  apply (Hgone 100%positive); [reflexivity | member].
Qed.

(** C4, on a class loaded by [LoadSynchronous]: [UnloadClass] takes the
    reference out of [LoadedSoftClasses] and leaves the class in
    [LoadedObjects]. *)
Theorem UnloadClass_keeps_LoadedObjects :
  holds_class (this enemy_loaded) BP_Enemy ∧
  (let after := final (UnloadClass BP_Enemy_Path enemy_loaded) in
   (BP_Enemy_Path ∉ LoadedSoftClasses (this after)) ∧
   BP_Enemy ∈ LoadedObjects (this after)).
Proof.
  split; [split; member|]. cbn zeta. split; member.
Qed.

(** C5, on the single class overload: at completion the lambda puts the
    reference in [LoadedSoftClasses] and executes the delegate, and the
    class it resolved to is not in [LoadedObjects]. *)
Theorem single_class_completion_skips_LoadedObjects :
  submitted start enemy_requested = [enemy_request] ∧
  ResolveObject (world enemy_requested) BP_Enemy_Path = Some BP_Enemy ∧
  IsChildOf BP_Enemy AActor_Class = true ∧
  (let r := SignalCompletion enemy_request enemy_requested in
   trace r = [{| ev_call := CallExecute 0; ev_seen := this (final r) |}] ∧
   BP_Enemy_Path ∈ LoadedSoftClasses (this (final r)) ∧
   BP_Enemy ∉ LoadedObjects (this (final r))).
Proof.
  split; [vm_compute; reflexivity|]. split; [reflexivity|].
  split; [reflexivity|].
  cbn zeta. split; [vm_compute; reflexivity|]. split; member.
Qed.

(** ** Instances *)

(** An array of a mesh, a null entry and a missing asset: one request
    is submitted and its completion executes the delegate once. *)
Lemma RequestAsyncLoad_executes_once_witness :
  let r := RequestAsyncLoad (ObjectArray mesh_array) (BindStatic 0) start in
  reclaimed (final r) = false ∧
  ((submitted start (final r) = [] ∧ executions 0 (trace r) = 1) ∨
   (∃ req, submitted start (final r) = [req] ∧ executions 0 (trace r) = 0 ∧
           executions 0 (trace (SignalCompletion req (final r))) = 1)).
Proof.
  cbn zeta. split; [reflexivity|].
  apply (RequestAsyncLoad_executes_once (ObjectArray mesh_array) 0 start).
  reflexivity.
Defined.

(** An array of two null references. *)
Lemma RequestAsyncLoad_all_null_witness :
  Forall (λ p, IsNull p = true) [EmptyString; EmptyString] ∧
  immediate_completion 0 start
    (RequestAsyncLoad (ObjectArray [EmptyString; EmptyString]) (BindStatic 0) start) ∧
  immediate_completion 0 start
    (RequestAsyncLoad (ClassArray [EmptyString; EmptyString]) (BindStatic 0) start).
Proof.
  assert (Hnull : Forall (λ p, IsNull p = true) [EmptyString; EmptyString]).
  { repeat constructor. }
  split; [exact Hnull|].
  exact (RequestAsyncLoad_all_null [EmptyString; EmptyString] 0 start Hnull).
Defined.

(** [CreateActor<APawn>(AActor::StaticClass())]: the actor spawned is no
    pawn. *)
Lemma CreateActor_cast_failure_witness :
  IsValid (world start) AActor_Class = true ∧
  GetWorld (world start) = true ∧
  SpawnActor (world start) AActor_Class =
    (Some 100%positive, {| next_actor := 101; garbage := ∅ |}) ∧
  IsA 100%positive APawn_Class = false ∧
  (let r := CreateActor APawn_Class (Some AActor_Class) start in
   result r = None ∧ this (final r) = this start ∧
   world (final r) = {| next_actor := 101; garbage := ∅ |} ∧ trace r = []).
Proof.
  repeat (split; [reflexivity|]).
  apply (CreateActor_cast_failure APawn_Class AActor_Class 100%positive
           {| next_actor := 101; garbage := ∅ |} start); reflexivity.
Defined.

(** [DestroyBox] twice on a box that holds one actor. *)
Lemma DestroyBox_idempotent_witness :
  RF_BeginDestroyed one_actor = false ∧
  (let first := DestroyBox one_actor in
   let second := DestroyBox (final first) in
   drained (this (final first)) ∧
   result second = false ∧ trace second = [] ∧ final second = final first ∧
   trace (BeginDestroy (final first)) = [] ∧
   drained (this (final (BeginDestroy (final first))))).
Proof.
  split; [reflexivity|].
  apply (DestroyBox_idempotent one_actor). reflexivity.
Defined.

End Runs.

(** * Properties of the rest of the class *)

Section RestProperties.

Context {W : Type} `{!Engine W} `{!EngineObjects W}.

#[local] Existing Instance M_ret.

#[local] Existing Instance M_bind.

Implicit Types (st later : State W) (tr : list Event).

Ltac go :=
  repeat (cbn [result final trace fst snd app negb Cast this world RF_BeginDestroyed
                 reclaimed set_this set_world set_BeginDestroyed] in *;
          unfold mbind, mret, M_bind, M_ret, get_this, modify_this, ask,
            engine, call, Streamable_RequestAsyncLoad,
            TWeakObjectPtr_Get, TWeakObjectPtr_IsValid in *;
          cbn beta iota in *).

Lemma set_this_id (f : UCacheBox → UCacheBox) st :
  f (this st) = this st → set_this f st = st.
Proof. intros Hf. destruct st. unfold set_this. cbn in *. by rewrite Hf. Qed.

Lemma set_CreatedObjects_id (f : gset UObject → gset UObject) (b : UCacheBox) :
  f (CreatedObjects b) = CreatedObjects b → set_CreatedObjects f b = b.
Proof. intros Hf. destruct b. unfold set_CreatedObjects. cbn in *. by rewrite Hf. Qed.

(** ** Creation *)

Lemma CreateObject_created_or_unchanged (T : UClass) (Class : option UClass) st :
  created_or_unchanged st (CreateObject T Class st).
Proof.
  unfold created_or_unchanged, CreateObject. destruct Class as [c|]; go; [|done].
  destruct (IsValid (world st) c); go; [|done].
  destruct (NewObject (world st) T c) as [[o|] w]; by go.
Qed.

Lemma CreateActor_created_or_unchanged (T : UClass) (Class : option UClass) st :
  created_or_unchanged st (CreateActor T Class st).
Proof.
  unfold created_or_unchanged, CreateActor. destruct Class as [c|]; go; [|done].
  destruct (IsValid (world st) c); go; [|done].
  destruct (GetWorld (world st)); go; [|done].
  destruct (SpawnActor (world st) c) as [[a|] w]; go; [|done].
  destruct (IsA a T); by go.
Qed.

Lemma CreateMaterialInstanceDynamic_created_or_unchanged
    (ParentMaterial InOuter : option UObject) st :
  created_or_unchanged st (CreateMaterialInstanceDynamic ParentMaterial InOuter st).
Proof.
  unfold created_or_unchanged, CreateMaterialInstanceDynamic. go.
  destruct (UMaterialInstanceDynamic_Create (world st) ParentMaterial InOuter)
    as [[o|] w]; go; [|done].
  destruct (IsValid w o); by go.
Qed.

(** X1. Each of [CreateObject], [CreateActor] and
    [CreateMaterialInstanceDynamic] either returns an object, which it has
    put in [CreatedObjects] and which is the only change to the box, or
    returns nullptr and leaves the box as it was. *)
Theorem creation_tracks_what_it_returns (T : UClass) (Class : option UClass)
    (ParentMaterial InOuter : option UObject) st :
  created_or_unchanged st (CreateObject T Class st) ∧
  created_or_unchanged st (CreateActor T Class st) ∧
  created_or_unchanged st (CreateMaterialInstanceDynamic ParentMaterial InOuter st).
Proof.
  split; [|split].
  - apply CreateObject_created_or_unchanged.
  - apply CreateActor_created_or_unchanged.
  - apply CreateMaterialInstanceDynamic_created_or_unchanged.
Qed.

(** X2. With a class pointer that is null or not valid, [CreateObject],
    [CreateWidget] and [CreateActor] return nullptr without asking the
    engine for anything: neither the box nor the engine state changes. *)
Theorem creation_needs_valid_class (T : UClass) (Class : option UClass) st :
  invalid_class (world st) Class →
  CreateObject T Class st = (None, st, []) ∧
  CreateWidget T Class st = (None, st, []) ∧
  CreateActor T Class st = (None, st, []).
Proof.
  intros Hbad. unfold CreateObject, CreateWidget, CreateActor.
  destruct Class as [c|]; [|done]. cbn in Hbad. go. by rewrite Hbad.
Qed.

(** X3. Without a world, [CreateWidget] and [CreateActor] return nullptr
    and nothing is created or spawned: neither the box nor the engine
    state changes. *)
Theorem creation_needs_world (T : UClass) (Class : option UClass) st :
  GetWorld (world st) = false →
  CreateWidget T Class st = (None, st, []) ∧
  CreateActor T Class st = (None, st, []).
Proof.
  intros Hw. unfold CreateWidget, CreateActor.
  destruct Class as [c|]; [|done]. go.
  destruct (IsValid (world st) c); go; [|done]. by rewrite Hw.
Qed.

(** ** Destruction of one object *)

(** X4. [DestroyObject] on a handle that is null or whose object is no
    longer valid does nothing at all: no call is made, and the object, if
    it is in [CreatedObjects], stays there. *)
Theorem DestroyObject_stale_handle (InObject : option UObject) (bPure : bool) st :
  stale_handle (world st) InObject →
  DestroyObject InObject bPure st = (tt, st, []).
Proof.
  intros Hbad. unfold DestroyObject. go.
  destruct InObject as [o|]; cbn in Hbad; go.
  - rewrite Hbad. go. by rewrite set_this_id; [|apply set_CreatedObjects_id].
  - by rewrite set_this_id; [|apply set_CreatedObjects_id].
Qed.

(** X5. For a widget and for an actor [bPure] makes no difference:
    [DestroyObject] does the same with true and with false. *)
Theorem DestroyObject_bPure_irrelevant (o : UObject) st :
  IsA o UUserWidget_StaticClass = true ∨ IsA o AActor_StaticClass = true →
  DestroyObject (Some o) true st = DestroyObject (Some o) false st.
Proof.
  intros Hkind. unfold DestroyObject. go.
  destruct (IsValid (world st) o); go; [|done].
  destruct (IsA o UUserWidget_StaticClass); [done|].
  destruct (IsA o AActor_StaticClass); [done|].
  by destruct Hkind.
Qed.

Lemma DestroyObject_valid (o : UObject) (bPure : bool) st :
  IsValid (world st) o = true →
  let r := DestroyObject (Some o) bPure st in
  this (final r) = set_CreatedObjects (TSet.Remove o) (this st) ∧
  teardown_targets (trace r) = [o] ∧ length (trace r) = 1.
Proof.
  intros Hv. unfold DestroyObject. go. rewrite Hv. go.
  destruct (IsA o UUserWidget_StaticClass);
    [|destruct (IsA o AActor_StaticClass); [|destruct bPure]]; by go.
Qed.

(** X6. Creation and destruction compose: when [CreateObject] or
    [CreateActor] returns an object that was not in [CreatedObjects] before
    and is valid, [DestroyObject] on it makes exactly one teardown call, on
    that object, and the box is again as it was before the creation. *)
Theorem create_then_destroy (T : UClass) (Class : option UClass) (o : UObject)
    (bPure : bool) st :
  o ∉ CreatedObjects (this st) →
  (let made := CreateObject T Class st in
   result made = Some o → IsValid (world (final made)) o = true →
   let r := DestroyObject (Some o) bPure (final made) in
   this (final r) = this st ∧ teardown_targets (trace r) = [o] ∧
   length (trace made ++ trace r) = 1) ∧
  (let made := CreateActor T Class st in
   result made = Some o → IsValid (world (final made)) o = true →
   let r := DestroyObject (Some o) bPure (final made) in
   this (final r) = this st ∧ teardown_targets (trace r) = [o] ∧
   length (trace made ++ trace r) = 1).
Proof.
  intros Hfresh.
  assert (Hback : set_CreatedObjects (TSet.Remove o)
                    (set_CreatedObjects (TSet.Emplace o) (this st)) = this st).
  { destruct (this st) as [C L SO SC Q]. unfold set_CreatedObjects. cbn in *.
    f_equal. unfold TSet.Remove, TSet.Emplace. apply set_eq. intros x.
    rewrite elem_of_difference, elem_of_union, !elem_of_singleton.
    split; [by intros [[?|?] ?] | intros Hx].
    split; [by right | by intros ->]. }
  pose proof (CreateObject_created_or_unchanged T Class st) as HO.
  pose proof (CreateActor_created_or_unchanged T Class st) as HA.
  unfold created_or_unchanged in HO, HA.
  split; cbn zeta.
  - destruct HO as (Htr & _ & _ & Hbox). intros Hres Hv.
    rewrite Hres in Hbox.
    destruct (DestroyObject_valid o bPure _ Hv) as (Hb & Ht & Hl).
    rewrite Hb, Hbox, Htr. done.
  - destruct HA as (Htr & _ & _ & Hbox). intros Hres Hv.
    rewrite Hres in Hbox.
    destruct (DestroyObject_valid o bPure _ Hv) as (Hb & Ht & Hl).
    rewrite Hb, Hbox, Htr. done.
Qed.

(** ** Destruction of all objects *)

Lemma DestroyAllObjects_item_calls (o : UObject) st :
  let tr := trace (DestroyAllObjects_item o st) in
  (tr = [] ∨ teardown_targets tr = [o] ∧ length tr = 1) ∧
  Forall (λ e, is_immediate (ev_call e) = true) tr.
Proof.
  unfold DestroyAllObjects_item. go.
  destruct (IsValid (world st) o); go; [|by split; [left | constructor]].
  destruct (IsA o UUserWidget_StaticClass); [|destruct (IsA o AActor_StaticClass)];
    go; (split; [by right | by repeat constructor]).
Qed.

Lemma DestroyAllObjects_loop_calls (l : list UObject) st :
  let tr := trace (for_each l DestroyAllObjects_item st) in
  teardown_targets tr `sublist_of` l ∧
  length (teardown_targets tr) = length tr ∧
  Forall (λ e, is_immediate (ev_call e) = true) tr.
Proof.
  revert st. induction l as [|o l IH]; intros st; cbn [for_each]; go.
  - split; [constructor | split; [done | constructor]].
  - destruct (DestroyAllObjects_item_calls o st) as [Hone Himm].
    destruct (DestroyAllObjects_item o st) as [[[] st1] tr1]; go.
    destruct (IH st1) as (Hsub & Hlen & Hrest).
    destruct (for_each l DestroyAllObjects_item st1) as [[[] st2] tr2]; go.
    unfold teardown_targets in *. rewrite omap_app, !length_app.
    split; [|split; [|by apply Forall_app]].
    + destruct Hone as [-> | [-> _]]; [by apply sublist_cons | by apply sublist_skip].
    + destruct Hone as [-> | [Ht Hl]]; [done | rewrite Ht, Hl; cbn; lia].
Qed.

(** The set is run over once, whatever the order: no object is the target
    of two calls, and every target is a member. *)
Lemma DestroyAllObjects_calls st :
  let tr := trace (DestroyAllObjects st) in
  NoDup (teardown_targets tr) ∧
  (∀ o, o ∈ teardown_targets tr → o ∈ CreatedObjects (this st)) ∧
  length (teardown_targets tr) = length tr ∧
  Forall (λ e, is_immediate (ev_call e) = true) tr.
Proof.
  unfold DestroyAllObjects. go.
  destruct (DestroyAllObjects_loop_calls (elements (CreatedObjects (this st))) st)
    as (Hsub & Hlen & Himm).
  destruct (for_each _ _ st) as [[[] st1] tr1]; go.
  rewrite app_nil_r. split; [|split; [|done]].
  - exact (sublist_NoDup _ _ (NoDup_elements (CreatedObjects (this st))) Hsub).
  - intros o Ho. apply elem_of_elements. exact (elem_of_sublist _ _ _ Ho Hsub).
Qed.

(** X7. [DestroyAllObjects] makes at most one call per member of
    [CreatedObjects] and none on anything else, every call is a teardown
    that takes effect at once (never [MarkAsGarbage]), and no delegate is
    executed. *)
Theorem DestroyAllObjects_once_each st :
  let tr := trace (DestroyAllObjects st) in
  NoDup (teardown_targets tr) ∧
  (∀ o, o ∈ teardown_targets tr → o ∈ CreatedObjects (this st)) ∧
  length (teardown_targets tr) = length tr ∧
  Forall (λ e, is_immediate (ev_call e) = true) tr.
Proof.
  unfold DestroyAllObjects. go.
  destruct (DestroyAllObjects_loop_calls (elements (CreatedObjects (this st))) st)
    as (Hsub & Hlen & Himm).
  destruct (for_each _ _ st) as [[[] st1] tr1]; go.
  rewrite app_nil_r. split; [|split; [|done]].
  - exact (sublist_NoDup _ _ (NoDup_elements (CreatedObjects (this st))) Hsub).
  - intros o Ho. apply elem_of_elements. exact (elem_of_sublist _ _ _ Ho Hsub).
Qed.

Lemma DestroyAllObjects_nothing_created st :
  CreatedObjects (this st) = ∅ → DestroyAllObjects st = (tt, st, []).
Proof.
  intros He. unfold DestroyAllObjects. go. rewrite He, elements_empty.
  cbn [for_each]. go. rewrite set_this_id; [done|].
  by apply set_CreatedObjects_id.
Qed.

(** X8. [DestroyAllObjects] is idempotent: run a second time it makes no
    call and changes nothing. *)
Theorem DestroyAllObjects_idempotent st :
  DestroyAllObjects (final (DestroyAllObjects st)) =
    (tt, final (DestroyAllObjects st), []).
Proof.
  apply DestroyAllObjects_nothing_created.
  by destruct (DestroyAllObjects_spec st) as [-> _].
Qed.

(** X24. No second teardown: an object [DestroyObject] has torn down is
    not among the objects a following [DestroyAllObjects], [BeginDestroy]
    or [DestroyBox] tears down. *)
Theorem destroyed_object_not_torn_down_again (o : UObject) (bPure : bool) st :
  IsValid (world st) o = true →
  let after := final (DestroyObject (Some o) bPure st) in
  (o ∉ teardown_targets (trace (DestroyAllObjects after))) ∧
  (o ∉ teardown_targets (trace (BeginDestroy after))) ∧
  (o ∉ teardown_targets (trace (DestroyBox after))).
Proof.
  intros Hv. cbn zeta.
  destruct (DestroyObject_valid o bPure st Hv) as (Hbox & _ & _).
  set (after := final (DestroyObject (Some o) bPure st)) in *.
  assert (Hall : ∀ s : State W, this s = this after →
            o ∉ teardown_targets (trace (DestroyAllObjects s))).
  { intros s Hs Hin.
    destruct (DestroyAllObjects_calls s) as (_ & Hmem & _).
    pose proof (Hmem o Hin) as Hsub. rewrite Hs, Hbox in Hsub. cbn in Hsub.
    unfold TSet.Remove in Hsub.
    apply elem_of_difference in Hsub as [_ Hne]. apply Hne.
    by apply elem_of_singleton. }
  assert (Hbegin : ∀ s : State W, this s = this after →
            o ∉ teardown_targets (trace (BeginDestroy s))).
  { intros s Hs. specialize (Hall s Hs). unfold BeginDestroy. go.
    destruct (DestroyAllObjects s) as [[[] s1] t1]. go.
    rewrite UnloadAllObjects_spec. go. by rewrite app_nil_r. }
  split; [by apply Hall|]. split; [by apply Hbegin|].
  unfold DestroyBox, ConditionalBeginDestroy. go.
  destruct (RF_BeginDestroyed after); go; [by intros ?%elem_of_nil|].
  specialize (Hbegin (set_BeginDestroyed after) eq_refl).
  destruct (BeginDestroy (set_BeginDestroyed after)) as [[[] s1] t1]. go.
  by rewrite !app_nil_r.
Qed.

(** ** Unload *)

Lemma difference_twice (X Y : gset UObject) : X ∖ Y ∖ Y = X ∖ Y.
Proof. apply set_eq. intros x. rewrite !elem_of_difference. tauto. Qed.

Lemma difference_twice_path (X Y : gset FSoftObjectPath) : X ∖ Y ∖ Y = X ∖ Y.
Proof. apply set_eq. intros x. rewrite !elem_of_difference. tauto. Qed.

(** X9. [UnloadObject] and [UnloadClass] make no call and leave the engine
    state alone, so nothing is destroyed by an unload, and each is
    idempotent: a second unload of the same reference changes nothing. *)
Theorem unload_idempotent (InObject : TSoftObjectPtr) st :
  (let once := UnloadObject InObject st in
   trace once = [] ∧ world (final once) = world st ∧
   UnloadObject InObject (final once) = (tt, final once, [])) ∧
  (let once := UnloadClass InObject st in
   trace once = [] ∧ world (final once) = world st ∧
   UnloadClass InObject (final once) = (tt, final once, [])).
Proof.
  split; cbn zeta.
  - unfold UnloadObject. go.
    destruct (ResolveObject (world st) InObject) as [o|] eqn:Hres; go;
      rewrite ?Hres; go; [|done].
    repeat split. f_equal. f_equal.
    destruct st as [[C L SO SC Q] w f g]. unfold set_this. cbn. f_equal.
    unfold set_LoadedSoftObjects, set_LoadedObjects, TSet.Remove. cbn.
    by rewrite difference_twice, difference_twice_path.
  - unfold UnloadClass. go.
    destruct (ResolveObject (world st) InObject) as [o|] eqn:Hres; go;
      rewrite ?Hres; go; [|done].
    repeat split. f_equal. f_equal.
    destruct st as [[C L SO SC Q] w f g]. unfold set_this. cbn. f_equal.
    unfold set_LoadedSoftClasses, TSet.Remove. cbn.
    by rewrite difference_twice_path.
Qed.

(** X10. Load and unload compose, without counting: after a successful
    [LoadSynchronous] of a reference whose object carries the path of the
    reference and resolves in memory, one [UnloadObject] takes the object
    out of [LoadedObjects] and the reference out of [LoadedSoftObjects],
    however often it had been loaded, and touches nothing else. *)
Theorem load_then_unload (T : UClass) (p : TSoftObjectPtr) (o : UObject) st :
  let loaded := LoadSynchronous_Object T p st in
  result loaded = Some o →
  GetPathName o = p →
  ResolveObject (world (final loaded)) p = Some o →
  let b := this (final (UnloadObject p (final loaded))) in
  LoadedObjects b = LoadedObjects (this st) ∖ {[o]} ∧
  LoadedSoftObjects b = LoadedSoftObjects (this st) ∖ {[p]} ∧
  CreatedObjects b = CreatedObjects (this st) ∧
  LoadedSoftClasses b = LoadedSoftClasses (this st) ∧
  Streamable b = Streamable (this st).
Proof.
  cbn zeta. unfold LoadSynchronous_Object.
  destruct (IsNull p); go; [done|].
  destruct (TryLoad (world st) p) as [[o'|] w]; go; [|done].
  destruct (IsA o' T); go; [|done].
  intros [= ->] Hpath Hres. unfold UnloadObject. go. rewrite Hres. go.
  rewrite Hpath. cbn. unfold TSet.Remove, TSet.Emplace.
  repeat split; apply set_eq; intros x;
    rewrite !elem_of_difference, elem_of_union, !elem_of_singleton; tauto.
Qed.

(** ** Synchronous load *)

(** X11. When the engine loads the asset and the type check then fails
    (the cast to [T] for an object, [IsChildOf] for a class),
    [LoadSynchronous] returns nullptr and the box is unchanged, while the
    engine state is the one the load has left: the asset is loaded and not
    tracked. *)
Theorem LoadSynchronous_type_mismatch (T : UClass) (p : TSoftObjectPtr)
    (o : UObject) st :
  IsNull p = false →
  (TryLoad (world st) p).1 = Some o →
  (IsA o T = false →
   LoadSynchronous_Object T p st =
     (None, set_world (λ _, (TryLoad (world st) p).2) st, [])) ∧
  (IsChildOf o T = false →
   LoadSynchronous_Class T p st =
     (None, set_world (λ _, (TryLoad (world st) p).2) st, [])).
Proof.
  intros Hp Hload. unfold LoadSynchronous_Object, LoadSynchronous_Class.
  rewrite Hp. go.
  destruct (TryLoad (world st) p) as [r w]. cbn in Hload. subst r. go.
  split; intros ->; by go.
Qed.

(** ** Synchronous load of an array *)

(** X12. An array whose entries are all null, the empty array included,
    is skipped entry by entry: the engine is never asked to load, and
    neither the box nor the engine state changes. *)
Theorem LoadSynchronous_array_all_null (batch : list TSoftObjectPtr) st :
  Forall (λ p, IsNull p = true) batch →
  LoadSynchronous_Objects batch st = (tt, st, []) ∧
  LoadSynchronous_Classes batch st = (tt, st, []).
Proof.
  unfold LoadSynchronous_Objects, LoadSynchronous_Classes.
  induction 1 as [|p l Hp _ [IHo IHc]]; [done|].
  cbn [for_each].
  assert (Ho : LoadSynchronous_Objects_item p = mret tt)
    by (unfold LoadSynchronous_Objects_item; by rewrite Hp).
  assert (Hc : LoadSynchronous_Classes_item p = mret tt)
    by (unfold LoadSynchronous_Classes_item; by rewrite Hp).
  rewrite Ho, Hc. go. by rewrite IHo, IHc.
Qed.

Lemma loads_only_trans st (s1 s2 : State W) :
  loads_only st s1 → loads_only s1 s2 → loads_only st s2.
Proof.
  intros (A1 & A2 & A3 & A4 & A5 & A6 & A7) (B1 & B2 & B3 & B4 & B5 & B6 & B7).
  repeat split; try congruence; by etrans.
Qed.

Lemma LoadSynchronous_single_loads_only (T : UClass) (p : TSoftObjectPtr) st :
  (loads_only st (final (LoadSynchronous_Object T p st)) ∧
   trace (LoadSynchronous_Object T p st) = []) ∧
  (loads_only st (final (LoadSynchronous_Class T p st)) ∧
   trace (LoadSynchronous_Class T p st) = []).
Proof.
  unfold LoadSynchronous_Object, LoadSynchronous_Class, loads_only.
  destruct (IsNull p); go; [done|].
  destruct (TryLoad (world st) p) as [[o|] w]; go; [|done].
  split.
  - destruct (IsA o T); go; [|done]. cbn. unfold TSet.Emplace.
    repeat split; try done; apply union_subseteq_r.
  - destruct (IsChildOf o T); go; [|done]. cbn. unfold TSet.Emplace.
    repeat split; try done; apply union_subseteq_r.
Qed.

Lemma LoadSynchronous_item_loads_only (p : TSoftObjectPtr) st :
  (loads_only st (final (LoadSynchronous_Objects_item p st)) ∧
   trace (LoadSynchronous_Objects_item p st) = []) ∧
  (loads_only st (final (LoadSynchronous_Classes_item p st)) ∧
   trace (LoadSynchronous_Classes_item p st) = []).
Proof.
  unfold LoadSynchronous_Objects_item, LoadSynchronous_Classes_item.
  destruct (IsNull p); go; [done|].
  destruct (LoadSynchronous_single_loads_only UObject_StaticClass p st)
    as [[Ho Hto] [Hc Htc]].
  destruct (LoadSynchronous_Object UObject_StaticClass p st) as [[r1 s1] t1].
  destruct (LoadSynchronous_Class UObject_StaticClass p st) as [[r2 s2] t2].
  go. subst. done.
Qed.

Lemma LoadSynchronous_loop_loads_only (l : list TSoftObjectPtr) st :
  (loads_only st (final (for_each l LoadSynchronous_Objects_item st)) ∧
   trace (for_each l LoadSynchronous_Objects_item st) = []) ∧
  (loads_only st (final (for_each l LoadSynchronous_Classes_item st)) ∧
   trace (for_each l LoadSynchronous_Classes_item st) = []).
Proof.
  split; apply (for_each_silent (loads_only st)); try done.
  - intros p s Hs.
    destruct (LoadSynchronous_item_loads_only p s) as [[H1 H2] _].
    split; [by eapply loads_only_trans | done].
  - intros p s Hs.
    destruct (LoadSynchronous_item_loads_only p s) as [_ [H1 H2]].
    split; [by eapply loads_only_trans | done].
Qed.

(** X13. [LoadSynchronous] of an array only adds: the three loaded sets
    can grow and never lose a member, [CreatedObjects], the requests and
    the flags of the box stay as they are, and no call is made. *)
Theorem LoadSynchronous_array_only_adds (batch : list TSoftObjectPtr) st :
  (loads_only st (final (LoadSynchronous_Objects batch st)) ∧
   trace (LoadSynchronous_Objects batch st) = []) ∧
  (loads_only st (final (LoadSynchronous_Classes batch st)) ∧
   trace (LoadSynchronous_Classes batch st) = []).
Proof.
  unfold LoadSynchronous_Objects, LoadSynchronous_Classes.
  destruct (LoadSynchronous_loop_loads_only batch st) as [Ho Hc].
  split; [exact Ho | exact Hc].
Qed.

Lemma LoadSynchronous_item_holds (load : FSoftObjectPath → option UObject)
    (p : TSoftObjectPtr) (o : UObject) st :
  (∀ w q, (TryLoad w q).1 = load q) →
  IsNull p = false → load p = Some o →
  holds_object (this (final (LoadSynchronous_Objects_item p st))) o.
Proof.
  intros Hload Hp Ho.
  unfold LoadSynchronous_Objects_item, LoadSynchronous_Object.
  rewrite Hp. go. specialize (Hload (world st) p). rewrite Ho in Hload.
  destruct (TryLoad (world st) p) as [r w]. cbn in Hload. subst r. go.
  rewrite IsA_UObject. go.
  unfold holds_object, TSet.Emplace. cbn.
  split; apply elem_of_union_l; by apply elem_of_singleton.
Qed.

Lemma loads_only_holds st (s : State W) (o : UObject) :
  loads_only st s →
  (holds_object (this st) o → holds_object (this s) o) ∧
  (holds_class (this st) o → holds_class (this s) o).
Proof.
  intros (A1 & A2 & A3 & _). unfold holds_object, holds_class.
  split; intros [H1 H2]; split; auto.
Qed.

Lemma final_for_each_cons {A : Type} (body : A → M W unit) (x : A) (l : list A) st :
  final (for_each (x :: l) body st) = final (for_each l body (final (body x st))).
Proof.
  cbn [for_each]. go. destruct (body x st) as [[[] s1] t1]. go.
  by destruct (for_each l body s1) as [[[] s2] t2].
Qed.

(** X14. With an engine whose blocking load gives the same answer for a
    path whenever it is asked, every entry of an array of object references
    that is not null and loads is held by the box when [LoadSynchronous]
    returns: the object is in [LoadedObjects] and its soft reference in
    [LoadedSoftObjects], whatever the entries after it do. *)
Theorem LoadSynchronous_array_holds (load : FSoftObjectPath → option UObject)
    (batch : list TSoftObjectPtr) (p : TSoftObjectPtr) (o : UObject) st :
  (∀ w q, (TryLoad w q).1 = load q) →
  p ∈ batch → IsNull p = false → load p = Some o →
  holds_object (this (final (LoadSynchronous_Objects batch st))) o.
Proof.
  intros Hload Hin Hp Ho. revert st.
  unfold LoadSynchronous_Objects.
  induction batch as [|x l IH]; intros st; [by apply elem_of_nil in Hin|].
  rewrite !final_for_each_cons.
  apply elem_of_cons in Hin as [<- | Hin].
  - pose proof (LoadSynchronous_item_holds load p o st Hload Hp Ho) as Hxo.
    destruct (LoadSynchronous_loop_loads_only l
                (final (LoadSynchronous_Objects_item p st))) as [[Hgrow _] _].
    by apply (loads_only_holds _ _ o Hgrow).
  - exact (IH Hin (final (LoadSynchronous_Objects_item x st))).
Qed.

(** ** Completion of an array request *)

Lemma size_union_le (X Y : gset UObject) : size (X ∪ Y) ≤ size X + size Y.
Proof.
  rewrite size_union_alt. apply Nat.add_le_mono_l, subseteq_size.
  intros x [Hx _]%elem_of_difference. exact Hx.
Qed.

Lemma length_omap_le {A B : Type} (f : A → option B) (l : list A) :
  length (omap f l) ≤ length l.
Proof.
  induction l as [|x l IH]; [done|].
  change (omap f (x :: l)) with
    (match f x with Some y => y :: omap f l | None => omap f l end).
  destruct (f x); cbn [length]; lia.
Qed.

Lemma size_list_to_set_le (l : list UObject) :
  size (list_to_set l : gset UObject) ≤ length l.
Proof.
  induction l as [|x l IH]; cbn [list_to_set length].
  - by rewrite size_empty.
  - etrans; [apply size_union_le|]. rewrite size_singleton. lia.
Qed.

Lemma array_items_exact (paths : list FSoftObjectPath) st :
  (let b' := this (final (for_each paths ObjectArrayLoaded_item st)) in
   LoadedObjects b' = LoadedObjects (this st) ∪ list_to_set (resolved (world st) paths) ∧
   LoadedSoftObjects b' =
     LoadedSoftObjects (this st) ∪ list_to_set (GetPathName <$> resolved (world st) paths) ∧
   LoadedSoftClasses b' = LoadedSoftClasses (this st)) ∧
  (let b' := this (final (for_each paths ClassArrayLoaded_item st)) in
   LoadedObjects b' = LoadedObjects (this st) ∪ list_to_set (resolved (world st) paths) ∧
   LoadedSoftClasses b' =
     LoadedSoftClasses (this st) ∪ list_to_set (GetPathName <$> resolved (world st) paths) ∧
   LoadedSoftObjects b' = LoadedSoftObjects (this st)).
Proof.
  revert st. unfold resolved.
  induction paths as [|p l IH]; intros st.
  - cbn. repeat split; by rewrite ?(right_id_L ∅ (∪)).
  - rewrite !final_for_each_cons. cbn zeta.
    assert (Hcons : omap (ResolveObject (world st)) (p :: l) =
              match ResolveObject (world st) p with
              | Some o => o :: omap (ResolveObject (world st)) l
              | None => omap (ResolveObject (world st)) l
              end) by reflexivity.
    rewrite Hcons. clear Hcons.
    destruct (ObjectArrayLoaded_item_frame st p st) as [(Hwo & _) _]; [done|].
    destruct (ClassArrayLoaded_item_frame st p st) as [(Hwc & _) _]; [done|].
    destruct (IH (final (ObjectArrayLoaded_item p st))) as [(O1 & O2 & O3) _].
    destruct (IH (final (ClassArrayLoaded_item p st))) as [_ (C1 & C2 & C3)].
    rewrite O1, O2, O3, C1, C2, C3, Hwo, Hwc.
    clear IH O1 O2 O3 C1 C2 C3 Hwo Hwc.
    unfold ObjectArrayLoaded_item, ClassArrayLoaded_item. go.
    destruct (ResolveObject (world st) p) as [o|]; go; [|done].
    cbn. unfold TSet.Emplace.
    repeat split; by rewrite (assoc_L (∪)), (comm_L (∪) {[_]}).
Qed.

(** X15. What the completion of an array request adds, exactly: the
    objects its paths resolve to at that moment join [LoadedObjects] and
    their soft references join the soft reference set of the overload;
    nothing leaves a set, the other soft reference set is untouched, and
    [LoadedObjects] grows by at most one member per path. *)
Theorem array_completion_exact (paths : list FSoftObjectPath) st :
  (let b' := this (final (lambda_body (ObjectArrayLoaded paths) st)) in
   LoadedObjects b' = LoadedObjects (this st) ∪ list_to_set (resolved (world st) paths) ∧
   LoadedSoftObjects b' =
     LoadedSoftObjects (this st) ∪ list_to_set (GetPathName <$> resolved (world st) paths) ∧
   LoadedSoftClasses b' = LoadedSoftClasses (this st) ∧
   size (LoadedObjects b') ≤ size (LoadedObjects (this st)) + length paths) ∧
  (let b' := this (final (lambda_body (ClassArrayLoaded paths) st)) in
   LoadedObjects b' = LoadedObjects (this st) ∪ list_to_set (resolved (world st) paths) ∧
   LoadedSoftClasses b' =
     LoadedSoftClasses (this st) ∪ list_to_set (GetPathName <$> resolved (world st) paths) ∧
   LoadedSoftObjects b' = LoadedSoftObjects (this st) ∧
   size (LoadedObjects b') ≤ size (LoadedObjects (this st)) + length paths).
Proof.
  assert (Hsize : ∀ X : gset UObject,
            size (X ∪ list_to_set (resolved (world st) paths)) ≤ size X + length paths).
  { intros X. etrans; [apply size_union_le|]. apply Nat.add_le_mono_l.
    etrans; [apply size_list_to_set_le|]. unfold resolved. apply length_omap_le. }
  cbn [lambda_body].
  destruct (array_items_exact paths st) as [(O1 & O2 & O3) (C1 & C2 & C3)].
  cbn zeta in *. rewrite O1, O2, O3, C1, C2, C3. by repeat split.
Qed.

(** ** The component *)

(** X16. [DestroyCacheBox], and so [EndPlay], always leaves the [CacheBox]
    pointer null, and run again it makes no call and changes nothing. *)
Theorem DestroyCacheBox_idempotent (c : UCacheBoxComponent W) :
  let c1 := (DestroyCacheBox c).1 in
  CacheBox c1 = None ∧
  DestroyCacheBox c1 = (c1, []) ∧ EndPlay c1 = (c1, []).
Proof.
  unfold EndPlay, DestroyCacheBox.
  destruct (CacheBox c) as [b|]; [destruct (collected b)|]; cbn; try done.
  destruct (DestroyBox (box_state b (engine_state c))) as [[r st] tr]. done.
Qed.

(** X17. [EndPlay] on a component whose box is not reclaimed nulls the
    pointer and tears the box down through [DestroyBox]: if the box had
    already begun its destruction nothing is called and the engine state
    is untouched; otherwise the loop of [DestroyAllObjects] has run on the
    box: it has come to every member of [CreatedObjects] and torn down,
    with the call of its type, each one it found valid; every call is such
    a teardown, at most one per member, taking effect at once; and the
    component is left with the engine state those calls produce. *)
Theorem EndPlay_tears_down (c : UCacheBoxComponent W) (b : UCacheBoxObject) :
  CacheBox c = Some b → collected b = false →
  let r := EndPlay c in
  CacheBox r.1 = None ∧
  if begun_destroy b then r.2 = [] ∧ engine_state r.1 = engine_state c
  else (∀ o, o ∈ CreatedObjects (members b) →
             torn_down_if_valid (members b) (engine_state c) r.2 o) ∧
       teardown_of_members (members b) r.2 ∧
       NoDup (teardown_targets r.2) ∧
       Forall (λ e, is_immediate (ev_call e) = true) r.2 ∧
       engine_state r.1 = engine_after r.2 (engine_state c).
Proof.
  intros Hb Hlive. unfold EndPlay, DestroyCacheBox. rewrite Hb, Hlive. cbn [negb].
  unfold DestroyBox, ConditionalBeginDestroy, BeginDestroy. go.
  change (RF_BeginDestroyed (box_state b (engine_state c))) with (begun_destroy b).
  destruct (begun_destroy b) eqn:Hbegun; go; [done|].
  set (st := set_BeginDestroyed (box_state b (engine_state c))).
  destruct (DestroyAllObjects_spec st) as (_ & _ & _ & Hmem).
  destruct (DestroyAllObjects_calls st) as (Hnodup & _ & _ & Himm).
  destruct (DestroyAllObjects_run st) as (Hw & Hall).
  destruct (DestroyAllObjects st) as [[[] st1] tr1]. go.
  rewrite UnloadAllObjects_spec. go. rewrite !app_nil_r. done.
Qed.

(** ** Completion after the destruction of the box *)


End RestProperties.

(** * Runs of the rest of the class on the sample engine *)

Section RestRuns.

Import Sample SampleObjects.

#[local] Existing Instance M_ret.

#[local] Existing Instance M_bind.

Ltac member := refine (bool_decide_unpack _ _); vm_compute; exact I.

(** [CreateActor] with a null class. *)
Lemma creation_needs_valid_class_witness :
  invalid_class (world start) None ∧
  CreateObject AActor_Class None start = (None, start, []) ∧
  CreateWidget AActor_Class None start = (None, start, []) ∧
  CreateActor AActor_Class None start = (None, start, []).
Proof.
  split; [exact I|].
  exact (creation_needs_valid_class AActor_Class None start I).
Defined.

(** The sample engine without a world. *)
Lemma creation_needs_world_witness :
  @GetWorld World offline_engine (world start) = false ∧
  @CreateWidget World offline_engine offline_objects
     AActor_Class (Some AActor_Class) start = (None, start, []) ∧
  @CreateActor World offline_engine AActor_Class (Some AActor_Class) start
     = (None, start, []).
Proof.
  split; [reflexivity|].
  exact (@creation_needs_world World offline_engine offline_objects
           AActor_Class (Some AActor_Class) start eq_refl).
Defined.

(** The actor of [one_actor], destroyed by [DestroyObject]. *)
Lemma destroyed_object_not_torn_down_again_witness :
  IsValid (world one_actor) 100%positive = true ∧
  (let after := final (DestroyObject (Some 100%positive) false one_actor) in
   (100%positive ∉ teardown_targets (trace (DestroyAllObjects after))) ∧
   (100%positive ∉ teardown_targets (trace (BeginDestroy after))) ∧
   (100%positive ∉ teardown_targets (trace (DestroyBox after)))).
Proof.
  split; [reflexivity|].
  apply (destroyed_object_not_torn_down_again 100%positive false one_actor).
  reflexivity.
Defined.

(** The actor of the box has been destroyed by the engine: the handle
    is stale, and the actor stays in [CreatedObjects]. *)
Lemma DestroyObject_stale_handle_witness :
  stale_handle (world actor_gone) (Some 100%positive) ∧
  100%positive ∈ CreatedObjects (this actor_gone) ∧
  DestroyObject (Some 100%positive) true actor_gone = (tt, actor_gone, []).
Proof.
  assert (Hstale : stale_handle (world actor_gone) (Some 100%positive))
    by reflexivity.
  assert (Hin : 100%positive ∈ CreatedObjects (this actor_gone)) by member.
  split; [exact Hstale|]. split; [exact Hin|].
  exact (DestroyObject_stale_handle (Some 100%positive) true actor_gone Hstale).
Defined.

(** The actor of [one_actor]. *)
Lemma DestroyObject_bPure_irrelevant_witness :
  (IsA 100%positive UUserWidget_StaticClass = true ∨
   IsA 100%positive AActor_StaticClass = true) ∧
  DestroyObject (Some 100%positive) true one_actor =
  DestroyObject (Some 100%positive) false one_actor.
Proof.
  assert (Hkind : IsA 100%positive UUserWidget_StaticClass = true ∨
                  IsA 100%positive AActor_StaticClass = true)
    by (right; reflexivity).
  split; [exact Hkind|].
  exact (DestroyObject_bPure_irrelevant 100%positive one_actor Hkind).
Defined.

(** [CreateActor] on a new box, then [DestroyObject] on the actor. *)
Lemma create_then_destroy_witness :
  (100%positive ∉ CreatedObjects (this start)) ∧
  (let made := CreateActor AActor_Class (Some AActor_Class) start in
   result made = Some 100%positive ∧
   IsValid (world (final made)) 100%positive = true ∧
   let r := DestroyObject (Some 100%positive) false (final made) in
   this (final r) = this start ∧ teardown_targets (trace r) = [100%positive] ∧
   length (trace made ++ trace r) = 1).
Proof.
  assert (Hfresh : 100%positive ∉ CreatedObjects (this start)) by member.
  split; [exact Hfresh|]. cbn zeta.
  split; [reflexivity|]. split; [reflexivity|].
  apply (create_then_destroy AActor_Class (Some AActor_Class) 100%positive
           false start Hfresh); reflexivity.
Defined.

(** [LoadSynchronous] of the mesh, then [UnloadObject]. *)
Lemma load_then_unload_witness :
  let loaded := LoadSynchronous_Object UObject_Class Mesh_Path start in
  result loaded = Some Mesh ∧
  GetPathName Mesh = Mesh_Path ∧
  ResolveObject (world (final loaded)) Mesh_Path = Some Mesh ∧
  (let b := this (final (UnloadObject Mesh_Path (final loaded))) in
   LoadedObjects b = LoadedObjects (this start) ∖ {[Mesh]} ∧
   LoadedSoftObjects b = LoadedSoftObjects (this start) ∖ {[Mesh_Path]} ∧
   CreatedObjects b = CreatedObjects (this start) ∧
   LoadedSoftClasses b = LoadedSoftClasses (this start) ∧
   Streamable b = Streamable (this start)).
Proof.
  cbn zeta. do 3 (split; [reflexivity|]).
  apply (load_then_unload UObject_Class Mesh_Path Mesh start); reflexivity.
Defined.

(** The mesh is no pawn, as an object and as a class. *)
Lemma LoadSynchronous_type_mismatch_witness :
  IsNull Mesh_Path = false ∧
  (TryLoad (world start) Mesh_Path).1 = Some Mesh ∧
  IsA Mesh APawn_Class = false ∧
  IsChildOf Mesh APawn_Class = false ∧
  LoadSynchronous_Object APawn_Class Mesh_Path start =
    (None, set_world (λ _, (TryLoad (world start) Mesh_Path).2) start, []) ∧
  LoadSynchronous_Class APawn_Class Mesh_Path start =
    (None, set_world (λ _, (TryLoad (world start) Mesh_Path).2) start, []).
Proof.
  assert (Hload : (TryLoad (world start) Mesh_Path).1 = Some Mesh)
    by reflexivity.
  do 4 (split; [reflexivity|]).
  destruct (LoadSynchronous_type_mismatch APawn_Class Mesh_Path Mesh start
              eq_refl Hload) as [Ho Hc].
  split; [apply Ho | apply Hc]; reflexivity.
Defined.

(** An array of two null references. *)
Lemma LoadSynchronous_array_all_null_witness :
  Forall (λ p, IsNull p = true) [EmptyString; EmptyString] ∧
  LoadSynchronous_Objects [EmptyString; EmptyString] start = (tt, start, []) ∧
  LoadSynchronous_Classes [EmptyString; EmptyString] start = (tt, start, []).
Proof.
  assert (Hnull : Forall (λ p, IsNull p = true) [EmptyString; EmptyString]).
  { repeat constructor. }
  split; [exact Hnull|].
  exact (LoadSynchronous_array_all_null [EmptyString; EmptyString] start Hnull).
Defined.



(** A box with a plain object and an actor, both valid: [DestroyObject]
    on the actor makes its one call after the removal, and
    [DestroyAllObjects] tears both members down. *)
Lemma destroy_order_witness :
  7%positive ∈ CreatedObjects (this object_and_actor) ∧
  101%positive ∈ CreatedObjects (this object_and_actor) ∧
  IsValid (world object_and_actor) 101%positive = true ∧
  (∃ e, trace (DestroyObject (Some 101%positive) false object_and_actor) = [e] ∧
        teardown_target (ev_call e) = Some 101%positive ∧
        101%positive ∉ CreatedObjects (ev_seen e)) ∧
  torn_down_if_valid (this object_and_actor) (world object_and_actor)
    (trace (DestroyAllObjects object_and_actor)) 7%positive ∧
  torn_down_if_valid (this object_and_actor) (world object_and_actor)
    (trace (DestroyAllObjects object_and_actor)) 101%positive ∧
  7%positive ∈ teardown_targets (trace (DestroyAllObjects object_and_actor)) ∧
  101%positive ∈ teardown_targets (trace (DestroyAllObjects object_and_actor)).
Proof.
  assert (H7 : 7%positive ∈ CreatedObjects (this object_and_actor)) by member.
  assert (H101 : 101%positive ∈ CreatedObjects (this object_and_actor)) by member.
  destruct (destroy_order (Some 101%positive) false object_and_actor)
    as (_ & Hone & _ & Hall & _).
  split; [exact H7|]. split; [exact H101|]. split; [reflexivity|].
  split; [exact (Hone 101%positive eq_refl eq_refl)|].
  split; [exact (Hall 7%positive H7)|]. split; [exact (Hall 101%positive H101)|].
  split; member.
Defined.

(** The array of the mesh, a null entry and a missing asset. *)
Lemma LoadSynchronous_array_holds_witness :
  (∀ (w : World) q, (TryLoad w q).1 = sample_ResolveObject (world start) q) ∧
  Mesh_Path ∈ mesh_array ∧ IsNull Mesh_Path = false ∧
  sample_ResolveObject (world start) Mesh_Path = Some Mesh ∧
  holds_object (this (final (LoadSynchronous_Objects mesh_array start))) Mesh.
Proof.
  assert (Hload : ∀ (w : World) q,
            (TryLoad w q).1 = sample_ResolveObject (world start) q)
    by (intros; reflexivity).
  assert (Hin : Mesh_Path ∈ mesh_array) by (vm_compute; constructor).
  split; [exact Hload|]. split; [exact Hin|].
  split; [reflexivity|]. split; [reflexivity|].
  exact (LoadSynchronous_array_holds (sample_ResolveObject (world start))
           mesh_array Mesh_Path Mesh start Hload Hin eq_refl eq_refl).
Defined.

(** [BeginPlay], one [CreateActor] through the box, [EndPlay]: the actor
    is valid when play ends, and [EndPlay] destroys it. *)
Lemma EndPlay_tears_down_witness :
  ∃ b, CacheBox playing = Some b ∧ collected b = false ∧
       begun_destroy b = false ∧ 100%positive ∈ CreatedObjects (members b) ∧
       IsValid (engine_state playing) 100%positive = true ∧
       (EndPlay playing).2 =
         [{| ev_call := CallDestroy 100; ev_seen := members b |}] ∧
       CacheBox (EndPlay playing).1 = None ∧
       (∀ o, o ∈ CreatedObjects (members b) →
             torn_down_if_valid (members b) (engine_state playing)
               (EndPlay playing).2 o) ∧
       teardown_of_members (members b) (EndPlay playing).2 ∧
       NoDup (teardown_targets (EndPlay playing).2) ∧
       Forall (λ e, is_immediate (ev_call e) = true) (EndPlay playing).2 ∧
       engine_state (EndPlay playing).1 =
         engine_after (EndPlay playing).2 (engine_state playing).
Proof.
  eexists. split; [reflexivity|]. split; [reflexivity|]. split; [reflexivity|].
  split; [member|]. split; [reflexivity|]. split; [vm_compute; reflexivity|].
  exact (EndPlay_tears_down playing _ eq_refl eq_refl).
Defined.

End RestRuns.

(** * Properties of the encryption helpers *)

Section EcryptionProperties.

Import Ecryption.

Context {FAESKey : Type} `{!Crypto FAESKey}.

Implicit Types (s : list N) (Key : FAESKey).

(** ** The engine functions *)

Lemma Align_block (n : nat) :
  n ≤ Align n AESBlockSize ∧ Align n AESBlockSize `mod` AESBlockSize = 0 ∧
  Align n AESBlockSize < n + AESBlockSize.
Proof.
  unfold Align, AESBlockSize.
  pose proof (Nat.div_mod_eq (n + 16 - 1) 16) as Hdm.
  pose proof (Nat.mod_upper_bound (n + 16 - 1) 16 ltac:(lia)) as Hlt.
  split; [lia|]. split; [apply Nat.Div0.mod_mul | lia].
Qed.

Lemma StringToBytes_all s :
  length (StringToBytes s (length s)) = length s ∧
  Forall is_byte (StringToBytes s (length s)).
Proof.
  unfold StringToBytes. rewrite firstn_all. split; [apply length_fmap|].
  apply Forall_fmap, Forall_forall. intros c _. unfold is_byte. cbn.
  apply N.mod_lt. done.
Qed.

Lemma BytesToString_StringToBytes s :
  BytesToString (StringToBytes s (length s)) (length s) = through_byte <$> s.
Proof.
  unfold BytesToString, StringToBytes. rewrite firstn_all.
  rewrite take_ge by (by rewrite length_fmap).
  by rewrite <- list_fmap_compose.
Qed.

Lemma StringToBytes_BytesToString (bs : list N) :
  Forall is_byte bs →
  StringToBytes (BytesToString bs (length bs)) (length bs) = bs.
Proof.
  intros Hb. unfold BytesToString, StringToBytes. rewrite firstn_all.
  rewrite take_ge by (by rewrite length_fmap).
  rewrite <- list_fmap_compose. rewrite <- (list_fmap_id bs) at 2.
  apply Forall_fmap_ext_1. eapply Forall_impl; [exact Hb|].
  intros b Hlt. unfold is_byte in Hlt. cbn.
  rewrite N.add_sub. by apply N.mod_small.
Qed.

Lemma through_byte_narrow (c : N) : narrow (through_byte c).
Proof.
  unfold narrow, through_byte.
  pose proof (N.mod_lt (c - 1) 256 ltac:(done)) as Hlt.
  revert Hlt. generalize ((c - 1) `mod` 256)%N. intros m Hm. lia.
Qed.

Lemma through_byte_id (c : N) : narrow c → through_byte c = c.
Proof.
  unfold narrow, through_byte. intros Hc.
  rewrite N.mod_small by lia. lia.
Qed.

Lemma through_byte_SPLIT_SYMBOL : through_byte <$> SPLIT_SYMBOL = SPLIT_SYMBOL.
Proof. reflexivity. Qed.

(** ** [Find] *)

Lemma Find_Some_length (sub s : list N) (i : nat) :
  Find sub s = Some i → i + length sub ≤ length s.
Proof.
  revert i. induction s as [|x s IH]; intros i; cbn [Find].
  - case_bool_decide as Hp; [|done]. intros [= <-].
    apply prefix_length in Hp. cbn in *. lia.
  - case_bool_decide as Hp.
    + intros [= <-]. apply prefix_length in Hp. cbn in *. lia.
    + destruct (Find sub s) as [j|]; [|done]. intros [= <-].
      specialize (IH j eq_refl). cbn. lia.
Qed.

Lemma prefix_app_short (sub l e : list N) :
  sub `prefix_of` l ++ e → length sub ≤ length l → sub `prefix_of` l.
Proof.
  intros [k Hk] Hlen.
  assert (Hsub : sub = take (length sub) l).
  { rewrite <- (take_app_le l e) by done. rewrite Hk.
    by rewrite take_app_length. }
  rewrite Hsub. apply prefix_take.
Qed.

Lemma Find_app (sub l e : list N) (i : nat) :
  Find sub l = Some i → Find sub (l ++ e) = Some i.
Proof.
  revert i. induction l as [|x l IH]; intros i.
  - cbn [Find]. case_bool_decide as Hp; [|done]. intros [= <-].
    destruct e as [|y e]; cbn [app Find];
      rewrite bool_decide_eq_true_2; try done.
    by apply (prefix_app_r _ [] (y :: e)) in Hp.
  - cbn [Find app]. case_bool_decide as Hp.
    + intros [= <-]. rewrite bool_decide_eq_true_2; [done|].
      by apply (prefix_app_r _ (x :: l) e).
    + destruct (Find sub l) as [j|] eqn:Hj; [|done]. intros [= <-].
      rewrite bool_decide_eq_false_2.
      * by rewrite (IH j eq_refl).
      * intros Hpe. apply Hp.
        apply (prefix_app_short sub (x :: l) e Hpe).
        apply Find_Some_length in Hj. cbn. lia.
Qed.

Lemma Find_appended (sub s : list N) :
  ∃ i, Find sub (s ++ sub) = Some i ∧ i ≤ length s.
Proof.
  induction s as [|x s (j & Hj & Hle)].
  - exists 0. split; [|done]. destruct sub; cbn [app Find];
      by rewrite bool_decide_eq_true_2.
  - cbn [app Find]. case_bool_decide.
    + exists 0. split; [done | cbn; lia].
    + exists (S j). rewrite Hj. split; [done | cbn; lia].
Qed.

(** ** The buffer *)

(** The buffer [Encrypt] and [EncryptBase64] hand to the cipher. *)
Lemma padded_buffer s :
  let Bytes := StringToBytes (s ++ SPLIT_SYMBOL) (length (s ++ SPLIT_SYMBOL)) in
  let Aligned := Align (length Bytes) AESBlockSize in
  let Buffer := SetNumZeroed Bytes Aligned in
  Aligned = length s + length SPLIT_SYMBOL + padding (length s) ∧
  length Buffer = Aligned ∧ Aligned `mod` AESBlockSize = 0 ∧
  Forall is_byte Buffer ∧
  BytesToString Buffer Aligned =
    (through_byte <$> s) ++ SPLIT_SYMBOL ++ replicate (padding (length s)) 1%N.
Proof.
  cbn zeta. set (T := s ++ SPLIT_SYMBOL).
  destruct (StringToBytes_all T) as [Hlen Hbytes].
  pose proof (BytesToString_StringToBytes T) as Hback.
  set (Bytes := StringToBytes T (length T)) in *.
  rewrite Hlen.
  assert (HT : length T = length s + length SPLIT_SYMBOL) by apply length_app.
  unfold padding. rewrite <- HT.
  destruct (Align_block (length T)) as (Hge & Hmod & _).
  set (A := Align (length T) AESBlockSize) in *.
  unfold SetNumZeroed. rewrite Hlen.
  assert (Hbuf : length (Bytes ++ replicate (A - length T) 0%N) = A)
    by (rewrite length_app, length_replicate; lia).
  split; [lia|]. split; [exact Hbuf|]. split; [exact Hmod|]. split.
  - apply Forall_app. split; [exact Hbytes|].
    apply Forall_replicate. by unfold is_byte.
  - unfold BytesToString in *. rewrite take_ge by lia.
    rewrite take_ge in Hback by lia.
    rewrite fmap_app, fmap_replicate, Hback. unfold T.
    by rewrite fmap_app, through_byte_SPLIT_SYMBOL, <- (assoc_L (++)).
Qed.

Lemma BytesToString_whole (bs : list N) :
  Forall is_byte bs →
  length (BytesToString bs (length bs)) = length bs ∧
  Forall narrow (BytesToString bs (length bs)).
Proof.
  intros Hb. unfold BytesToString. rewrite firstn_all, length_fmap.
  split; [done|]. apply Forall_fmap. eapply Forall_impl; [exact Hb|].
  unfold is_byte, narrow. cbn. lia.
Qed.

(** What [Encrypt] returns for a string that is not empty and a valid key. *)
Lemma Encrypt_value s Key :
  s ≠ [] → Key_IsValid Key = true →
  ∃ Buffer : list N,
    length Buffer = length s + length SPLIT_SYMBOL + padding (length s) ∧
    length Buffer `mod` AESBlockSize = 0 ∧ Forall is_byte Buffer ∧
    BytesToString Buffer (length Buffer) =
      (through_byte <$> s) ++ SPLIT_SYMBOL ++ replicate (padding (length s)) 1%N ∧
    Encrypt s Key = BytesToString (EncryptData Key Buffer) (length Buffer) ∧
    EncryptBase64 s Key = Base64_Encode (EncryptData Key Buffer).
Proof.
  intros Hs Hkey. unfold Encrypt, EncryptBase64.
  rewrite bool_decide_eq_false_2 by done. rewrite Hkey. cbn [negb]. cbn zeta.
  destruct (padded_buffer s) as (HA & Hlen & Hmod & Hbytes & Hstr).
  cbn zeta in *.
  set (Buffer := SetNumZeroed _ _) in *.
  set (A := Align _ _) in *.
  exists Buffer. rewrite Hlen. repeat split; try done.
  rewrite take_ge; [done|]. rewrite EncryptData_length. lia.
Qed.

Lemma Decrypt_Encrypt s Key :
  s ≠ [] → Key_IsValid Key = true →
  Decrypt (Encrypt s Key) Key =
    Split_Left ((through_byte <$> s) ++ SPLIT_SYMBOL ++
                replicate (padding (length s)) 1%N) SPLIT_SYMBOL.
Proof.
  intros Hs Hkey.
  destruct (Encrypt_value s Key Hs Hkey)
    as (Buffer & Hlen & Hmod & Hbytes & Hstr & -> & _).
  set (Enc := EncryptData Key Buffer).
  assert (HlenE : length Enc = length Buffer) by apply EncryptData_length.
  assert (HbytesE : Forall is_byte Enc) by by apply EncryptData_bytes.
  rewrite <- HlenE.
  destruct (BytesToString_whole Enc HbytesE) as [Hout _].
  unfold Decrypt. rewrite Hout, Hkey. cbn [negb].
  rewrite bool_decide_eq_false_2.
  2: { intros Hnil. apply (f_equal length) in Hnil. rewrite Hout in Hnil.
       cbn in Hnil. rewrite HlenE, Hlen in Hnil. cbn in Hnil. lia. }
  rewrite HlenE at 1. rewrite Hmod. cbn [Nat.eqb negb]. cbn zeta.
  rewrite (StringToBytes_BytesToString Enc HbytesE).
  unfold Enc at 1. rewrite DecryptData_EncryptData by done.
  by rewrite HlenE, Hstr.
Qed.

(** Both pipelines take the decrypted string apart in the same way. *)
Lemma DecryptBase64_EncryptBase64 s Key :
  s ≠ [] → Key_IsValid Key = true →
  DecryptBase64 (EncryptBase64 s Key) Key =
    Split_Left ((through_byte <$> s) ++ SPLIT_SYMBOL ++
                replicate (padding (length s)) 1%N) SPLIT_SYMBOL.
Proof.
  intros Hs Hkey.
  destruct (Encrypt_value s Key Hs Hkey)
    as (Buffer & Hlen & Hmod & Hbytes & Hstr & _ & ->).
  set (Enc := EncryptData Key Buffer).
  assert (HlenE : length Enc = length Buffer) by apply EncryptData_length.
  assert (HbytesE : Forall is_byte Enc) by by apply EncryptData_bytes.
  unfold DecryptBase64. rewrite Hkey. cbn [negb].
  rewrite bool_decide_eq_false_2.
  2: { intros Hnil. apply Base64_Encode_empty in Hnil.
       apply (f_equal length) in Hnil. rewrite HlenE, Hlen in Hnil.
       cbn in Hnil. lia. }
  rewrite (Base64_Decode_Encode Enc HbytesE). cbn zeta.
  rewrite HlenE, Hmod. cbn [Nat.eqb negb].
  unfold Enc. rewrite DecryptData_EncryptData by done.
  by rewrite Hstr.
Qed.

(** ** The split symbol *)

(** The symbol ends in a tilde and has no other: in a string without a
    tilde, followed by the symbol, the symbol is first found at the end. *)
Lemma Find_without_tilde s :
  126%N ∉ s → Find SPLIT_SYMBOL (s ++ SPLIT_SYMBOL) = Some (length s).
Proof.
  assert (Hlast : SPLIT_SYMBOL !! 30 = Some 126%N) by reflexivity.
  assert (Hbody : 126%N ∉ take 30 SPLIT_SYMBOL)
    by (refine (bool_decide_unpack _ _); vm_compute; exact I).
  induction s as [|x s IH]; intros Hno; [reflexivity|].
  cbn [app Find]. rewrite bool_decide_eq_false_2.
  - rewrite IH; [done|]. intros Hin. apply Hno. by right.
  - intros [k Hk].
    assert (Hat : ((x :: s) ++ SPLIT_SYMBOL) !! 30 = Some 126%N).
    { cbn [app]. rewrite Hk. by rewrite lookup_app_l by (cbn; lia). }
    destruct (decide (30 < length (x :: s))) as [Hlong|Hshort].
    + rewrite lookup_app_l in Hat by done.
      by apply list_elem_of_lookup_2 in Hat.
    + rewrite lookup_app_r in Hat by lia.
      apply Hbody. apply (list_elem_of_lookup_2 _ (30 - length (x :: s))).
      rewrite lookup_take_lt; [done|]. cbn. lia.
Qed.

Lemma Split_Left_narrow (X : list N) :
  Forall narrow X → Forall narrow (Split_Left X SPLIT_SYMBOL).
Proof.
  intros HX. unfold Split_Left.
  destruct (Find SPLIT_SYMBOL X); [by apply Forall_take | constructor].
Qed.

(** ** The helpers *)

Lemma Split_Left_found s (i pad : nat) :
  Forall narrow s → Find SPLIT_SYMBOL (s ++ SPLIT_SYMBOL) = Some i → i ≤ length s →
  Split_Left ((through_byte <$> s) ++ SPLIT_SYMBOL ++ replicate pad 1%N)
    SPLIT_SYMBOL = take i s.
Proof.
  intros Hnarrow Hi Hle.
  assert (Hid : through_byte <$> s = s).
  { rewrite <- (list_fmap_id s) at 2. apply Forall_fmap_ext_1.
    eapply Forall_impl; [exact Hnarrow|]. intros c Hc. by apply through_byte_id. }
  rewrite Hid. unfold Split_Left.
  rewrite (assoc_L (++)), (Find_app _ _ _ i Hi).
  rewrite <- (assoc_L (++)). by rewrite take_app_le.
Qed.

Lemma Encrypt_invalid_key s Key :
  Key_IsValid Key = false → Encrypt s Key = [] ∧ EncryptBase64 s Key = [].
Proof.
  intros Hkey. unfold Encrypt, EncryptBase64.
  split; (case_bool_decide; [done|]); by rewrite Hkey.
Qed.

(** X18. For a string of characters that fit a byte and a valid key,
    [Decrypt] of [Encrypt], and [DecryptBase64] of [EncryptBase64], return
    the part of the string before the first occurrence of the split
    symbol in the string followed by the symbol. *)
Theorem Decrypt_Encrypt_prefix s Key :
  s ≠ [] → Key_IsValid Key = true → Forall narrow s →
  ∃ i, Find SPLIT_SYMBOL (s ++ SPLIT_SYMBOL) = Some i ∧ i ≤ length s ∧
       Decrypt (Encrypt s Key) Key = take i s ∧
       DecryptBase64 (EncryptBase64 s Key) Key = take i s.
Proof.
  intros Hs Hkey Hnarrow.
  destruct (Find_appended SPLIT_SYMBOL s) as (i & Hi & Hle).
  exists i. split; [exact Hi|]. split; [exact Hle|].
  rewrite Decrypt_Encrypt, DecryptBase64_EncryptBase64 by done.
  by rewrite (Split_Left_found s i).
Qed.

(** X19. The round trip: a string that is not empty, whose characters fit
    a byte and that has no tilde comes back from [Decrypt] of [Encrypt],
    and from [DecryptBase64] of [EncryptBase64], as it went in. *)
Theorem Decrypt_Encrypt_roundtrip s Key :
  s ≠ [] → Key_IsValid Key = true → Forall narrow s → 126%N ∉ s →
  Decrypt (Encrypt s Key) Key = s ∧
  DecryptBase64 (EncryptBase64 s Key) Key = s.
Proof.
  intros Hs Hkey Hnarrow Hno.
  rewrite Decrypt_Encrypt, DecryptBase64_EncryptBase64 by done.
  rewrite (Split_Left_found s (length s)); [|done|by apply Find_without_tilde|done].
  by rewrite firstn_all.
Qed.

(** X20. A string with a character that does not fit a byte never comes
    back: what [Decrypt] of [Encrypt] returns differs from it, whatever
    the key. *)
Theorem Decrypt_Encrypt_wide s Key (c : N) :
  c ∈ s → ¬ narrow c →
  Decrypt (Encrypt s Key) Key ≠ s ∧
  DecryptBase64 (EncryptBase64 s Key) Key ≠ s.
Proof.
  intros Hc Hwide.
  assert (Hs : s ≠ []) by (intros ->; by apply elem_of_nil in Hc).
  assert (Hout : ∀ r, Forall narrow r → r ≠ s).
  { intros r Hr ->. apply Hwide. by apply (proj1 (Forall_forall _ _) Hr). }
  destruct (Key_IsValid Key) eqn:Hkey.
  - rewrite Decrypt_Encrypt, DecryptBase64_EncryptBase64 by done.
    split; apply Hout, Split_Left_narrow; repeat apply Forall_app_2.
    all: try (apply Forall_fmap, Forall_forall; intros; apply through_byte_narrow).
    all: try (apply Forall_replicate; unfold narrow; lia).
    all: refine (bool_decide_unpack _ _); vm_compute; exact I.
  - destruct (Encrypt_invalid_key s Key Hkey) as [-> ->].
    split; apply Hout; constructor.
Qed.

(** X21. For a string that is not empty and a valid key, the text [Encrypt]
    returns has a length that is a multiple of the block size, from 31 to
    46 characters more than the string, and no character outside 1 to
    256; [Decrypt] never rejects it for its size. *)
Theorem Encrypt_length s Key :
  s ≠ [] → Key_IsValid Key = true →
  length (Encrypt s Key) = Align (length s + length SPLIT_SYMBOL) AESBlockSize ∧
  length (Encrypt s Key) `mod` AESBlockSize = 0 ∧
  length s + 31 ≤ length (Encrypt s Key) < length s + 47 ∧
  Forall narrow (Encrypt s Key).
Proof.
  intros Hs Hkey.
  destruct (Encrypt_value s Key Hs Hkey)
    as (Buffer & Hlen & Hmod & Hbytes & _ & -> & _).
  assert (HlenE : length (EncryptData Key Buffer) = length Buffer)
    by apply EncryptData_length.
  destruct (BytesToString_whole (EncryptData Key Buffer)) as [Hout Hnarrow];
    [by apply EncryptData_bytes|].
  rewrite HlenE in Hout, Hnarrow. rewrite Hout.
  destruct (Align_block (length s + length SPLIT_SYMBOL)) as (Hge & _ & Hlt).
  unfold padding in Hlen. change (length SPLIT_SYMBOL) with 31 in *.
  unfold AESBlockSize in *.
  repeat split; try done; lia.
Qed.

(** X22. Each helper returns the empty string for an empty input and for a
    key that is not valid; [Decrypt] also for a text whose length is not a
    multiple of the block size, and [DecryptBase64] also for a text that
    does not decode or decodes to such a size. *)
Theorem helpers_reject s Key :
  (s = [] ∨ Key_IsValid Key = false →
   Encrypt s Key = [] ∧ Decrypt s Key = [] ∧
   EncryptBase64 s Key = [] ∧ DecryptBase64 s Key = []) ∧
  (length s `mod` AESBlockSize ≠ 0 → Decrypt s Key = []) ∧
  (Base64_Decode s = None → DecryptBase64 s Key = []) ∧
  (∀ Buffer, Base64_Decode s = Some Buffer →
     length Buffer `mod` AESBlockSize ≠ 0 → DecryptBase64 s Key = []).
Proof.
  unfold Encrypt, Decrypt, EncryptBase64, DecryptBase64.
  split; [|split; [|split]].
  - intros [-> | Hkey]; [done|]. rewrite Hkey. repeat split; by case_bool_decide.
  - intros Hmod. case_bool_decide; [done|]. destruct (Key_IsValid Key); [|done].
    cbn [negb]. by rewrite (proj2 (Nat.eqb_neq _ _) Hmod).
  - intros Hdec. case_bool_decide; [done|]. destruct (Key_IsValid Key); [|done].
    cbn [negb]. by rewrite Hdec.
  - intros Buffer Hdec Hmod. case_bool_decide; [done|].
    destruct (Key_IsValid Key); [|done].
    cbn [negb]. rewrite Hdec. cbn zeta. by rewrite (proj2 (Nat.eqb_neq _ _) Hmod).
Qed.

(** X23. The two pairs agree: for every string and key, [DecryptBase64]
    of [EncryptBase64] returns what [Decrypt] of [Encrypt] returns. *)
Theorem Base64_pair_agrees s Key :
  DecryptBase64 (EncryptBase64 s Key) Key = Decrypt (Encrypt s Key) Key.
Proof.
  destruct (decide (s = [])) as [-> | Hs]; [done|].
  destruct (Key_IsValid Key) eqn:Hkey.
  - by rewrite Decrypt_Encrypt, DecryptBase64_EncryptBase64.
  - by destruct (Encrypt_invalid_key s Key Hkey) as [-> ->].
Qed.

End EcryptionProperties.

(** * Runs of the encryption helpers on the sample cipher *)

Section EcryptionRuns.

Import Ecryption.

Lemma Decrypt_Encrypt_prefix_witness :
  hello ≠ [] ∧ Key_IsValid sample_key = true ∧ Forall narrow hello ∧
  ∃ i, Find SPLIT_SYMBOL (hello ++ SPLIT_SYMBOL) = Some i ∧ i ≤ length hello ∧
       Decrypt (Encrypt hello sample_key) sample_key = take i hello ∧
       DecryptBase64 (EncryptBase64 hello sample_key) sample_key = take i hello.
Proof.
  assert (Hs : hello ≠ []) by done.
  assert (Hn : Forall narrow hello)
    by (refine (bool_decide_unpack _ _); vm_compute; exact I).
  split; [exact Hs|]. split; [reflexivity|]. split; [exact Hn|].
  exact (Decrypt_Encrypt_prefix hello sample_key Hs eq_refl Hn).
Defined.

Lemma Decrypt_Encrypt_roundtrip_witness :
  hello ≠ [] ∧ Key_IsValid sample_key = true ∧ Forall narrow hello ∧
  (126%N ∉ hello) ∧
  Decrypt (Encrypt hello sample_key) sample_key = hello ∧
  DecryptBase64 (EncryptBase64 hello sample_key) sample_key = hello.
Proof.
  assert (Hs : hello ≠ []) by done.
  assert (Hn : Forall narrow hello)
    by (refine (bool_decide_unpack _ _); vm_compute; exact I).
  assert (Ht : 126%N ∉ hello)
    by (refine (bool_decide_unpack _ _); vm_compute; exact I).
  split; [exact Hs|]. split; [reflexivity|]. split; [exact Hn|].
  split; [exact Ht|].
  exact (Decrypt_Encrypt_roundtrip hello sample_key Hs eq_refl Hn Ht).
Defined.

Lemma Decrypt_Encrypt_wide_witness :
  20013%N ∈ zhong ∧ ¬ narrow 20013 ∧
  Decrypt (Encrypt zhong sample_key) sample_key ≠ zhong ∧
  DecryptBase64 (EncryptBase64 zhong sample_key) sample_key ≠ zhong.
Proof.
  assert (Hc : 20013%N ∈ zhong) by constructor.
  assert (Hw : ¬ narrow 20013) by (unfold narrow; lia).
  split; [exact Hc|]. split; [exact Hw|].
  exact (Decrypt_Encrypt_wide zhong sample_key 20013%N Hc Hw).
Defined.

Lemma Encrypt_length_witness :
  hello ≠ [] ∧ Key_IsValid sample_key = true ∧
  length (Encrypt hello sample_key) =
    Align (length hello + length SPLIT_SYMBOL) AESBlockSize ∧
  length (Encrypt hello sample_key) `mod` AESBlockSize = 0 ∧
  length hello + 31 ≤ length (Encrypt hello sample_key) < length hello + 47 ∧
  Forall narrow (Encrypt hello sample_key).
Proof.
  assert (Hs : hello ≠ []) by done.
  split; [exact Hs|]. split; [reflexivity|].
  exact (Encrypt_length hello sample_key Hs eq_refl).
Defined.

End EcryptionRuns.
